(** * funsor: the handler stack, the SLDS example and the Pyro wrapper

    A shallow embedding of [funsor/handlers.py], of the two inference
    routines of [examples/eeg_funsor_slds.py] and of the name resolution
    of [funsor/pyro/distribution.py], with the properties their
    specification states about them. *)

From stdpp Require Import gmap strings list pretty.
From Stdlib Require Import ZArith Lia.

Open Scope Z_scope.
Open Scope list_scope.
Set Warnings "-clear-no-such-hyp".

(** ** Python values and outcomes *)

(** The values that travel in messages: [None], booleans, integers,
    strings and tuples of values. *)
#[warnings="-register-all"]
Inductive pyval : Type :=
  | VNone
  | VBool (b : bool)
  | VInt (z : Z)
  | VStr (s : string)
  | VTuple (l : list pyval).

(** Equality of values is decidable and values can be dictionary keys:
    they are coded as trees over booleans, integers and strings. *)
Fixpoint pyval_code (v : pyval) : gen_tree (bool + Z + string) :=
  match v with
  | VNone => GenNode 0 []
  | VBool b => GenLeaf (inl (inl b))
  | VInt z => GenLeaf (inl (inr z))
  | VStr s => GenLeaf (inr s)
  | VTuple l => GenNode 1 (map pyval_code l)
  end.

Fixpoint pyval_decode (t : gen_tree (bool + Z + string)) : pyval :=
  match t with
  | GenLeaf (inl (inl b)) => VBool b
  | GenLeaf (inl (inr z)) => VInt z
  | GenLeaf (inr s) => VStr s
  | GenNode 0 _ => VNone
  | GenNode _ ts => VTuple (map pyval_decode ts)
  end.

#[global] Instance pyval_eq_dec : EqDecision pyval.
Proof.
  refine (fix go (x y : pyval) {struct x} : Decision (x = y) :=
    match x, y with
    | VNone, VNone => left eq_refl
    | VBool a, VBool b => cast_if (decide (a = b))
    | VInt a, VInt b => cast_if (decide (a = b))
    | VStr a, VStr b => cast_if (decide (a = b))
    | VTuple l, VTuple m => cast_if (@list_eq_dec _ go l m)
    | _, _ => right _
    end); abstract congruence.
Defined.

#[global] Instance pyval_countable : Countable pyval.
Proof.
  refine (inj_countable' pyval_code pyval_decode _).
  abstract (fix IH 1; intros [ | b | z | s | l]; cbn; try reflexivity;
            f_equal; induction l as [|x l IHl]; cbn; [reflexivity|];
            rewrite IH, IHl; reflexivity).
Defined.

(** Python truth value of an object, as tested by [if x:]. *)
Definition truthy (v : pyval) : bool :=
  match v with
  | VNone => false
  | VBool b => b
  | VInt z => negb (z =? 0)
  | VStr s => negb (String.eqb s "")
  | VTuple l => match l with [] => false | _ => true end
  end.

(** [x is None]. *)
Definition is_None (v : pyval) : bool :=
  match v with VNone => true | _ => false end.

(** The exceptions the modelled code can raise. [UnboundLocalError] is
    Python's subclass of [NameError] for a local read before assignment. *)
Inductive exn : Type :=
  | AssertionError (text : string)
  | IndexError
  | KeyError
  | AttributeError (attr : string)
  | NameError (name : string)
  | UnboundLocalError (name : string)
  | RuntimeError (text : string).

(** Both [NameError] and its subclass are name-resolution errors. *)
Definition is_name_error (e : exn) : bool :=
  match e with
  | NameError _ | UnboundLocalError _ => true
  | _ => false
  end.

Inductive Outcome (A : Type) : Type :=
  | Return (a : A)
  | Raise (e : exn).
Arguments Return {A} a.
Arguments Raise {A} e.

(** Python's [l[start:]] for a possibly negative [start]. *)
Definition slice_from {A} (start : Z) (l : list A) : list A :=
  let len := Z.of_nat (length l) in
  let i := if start <? 0 then Z.max 0 (start + len) else Z.min start len in
  drop (Z.to_nat i) l.

(** Python's [enumerate]. *)
Definition enumerate_from {A} (i0 : nat) (l : list A) : list (nat * A) :=
  zip (seq i0 (length l)) l.
Definition enumerate {A} (l : list A) : list (nat * A) := enumerate_from 0 l.

(** ** funsor/handlers.py *)

Module handlers.

(** What an observer of a run sees: every hook invocation and every call
    of a wrapped function, with the arguments the function received. *)
Inductive Event : Type :=
  | EvProcess (h : nat)
  | EvCall (f : nat) (args : list pyval) (kwargs : gmap string pyval)
  | EvPostprocess (h : nat).

(** [Label = namedtuple("Label", ["name"], ...)]: an instance records the
    operation kind that built it and the optional name. *)
Record Label : Type := mkLabel { term_type : string; name : pyval }.

(** The objects that occur as keys of the dictionaries of [OpRegistry]:
    class objects, which is what [register] is given as [term_types], and
    tuples. A class object is equal to no tuple. *)
Inductive Key : Type :=
  | KClass (cls : string)
  | KTuple (items : list pyval).

#[global] Instance Key_eq_dec : EqDecision Key.
Proof. solve_decision. Defined.

#[global] Instance Key_countable : Countable Key.
Proof.
  refine (inj_countable' (fun k => match k with KClass c => inl c | KTuple l => inr l end)
                         (fun s => match s with inl c => KClass c | inr l => KTuple l end) _).
  abstract (intros []; reflexivity).
Defined.

(** A label used as a dictionary key. A [Label] instance is a named
    tuple, that is, a tuple of its one field [name]: Python hashes and
    compares it as that tuple and does not look at its class. *)
Definition Label_as_key (l : Label) : Key := KTuple [name l].

Section Stack.

(** The rest of the program state, which hooks and wrapped functions may
    read and write. *)
Context {S : Type}.

(** A Python callable: an identity and its effect on arguments. *)
Record Callable : Type := mkCallable {
  fid : nat;
  call : list pyval -> gmap string pyval -> S -> pyval * S
}.

(** The message dictionary built by [effectful]; ["stop"] is a key that
    a hook may add, read with [msg.get("stop")]. *)
Record Msg : Type := mkMsg {
  label : Label;
  fn : Callable;
  args : list pyval;
  kwargs : gmap string pyval;
  value : pyval;
  stop : option pyval
}.

Definition set_value (v : pyval) (m : Msg) : Msg :=
  {| label := label m; fn := fn m; args := args m; kwargs := kwargs m;
     value := v; stop := stop m |}.

(** [msg.get("stop")] in a condition. *)
Definition get_stop (m : Msg) : bool := truthy (default VNone (stop m)).

(** A [Handler] object: its identity and its two hooks, which mutate the
    message in place. The base class leaves the message alone. *)
Record Handler : Type := mkHandler {
  hid : nat;
  process : Msg -> S -> Msg * S;
  postprocess : Msg -> S -> Msg * S
}.

Definition base_Handler (id : nat) : Handler :=
  {| hid := id; process := fun m s => (m, s); postprocess := fun m s => (m, s) |}.

(** [a is b] on handler objects. *)
Definition is_ (a b : Handler) : bool := Nat.eqb (hid a) (hid b).

(** The process-wide state: the global [HANDLER_STACK], the rest of the
    program state and the events observed so far. *)
Record World : Type := mkWorld {
  HANDLER_STACK : list Handler;
  mem : S;
  trace : list Event
}.

Definition M (A : Type) : Type := World -> Outcome A * World.

Definition ret {A} (a : A) : M A := fun w => (Return a, w).
Definition raise {A} (e : exn) : M A := fun w => (Raise e, w).
Definition bind {A B} (c : M A) (k : A -> M B) : M B :=
  fun w => match c w with
           | (Return a, w') => k a w'
           | (Raise e, w') => (Raise e, w')
           end.

Definition emit (e : Event) (w : World) : World :=
  {| HANDLER_STACK := HANDLER_STACK w; mem := mem w; trace := trace w ++ [e] |}.
Definition set_mem (s : S) (w : World) : World :=
  {| HANDLER_STACK := HANDLER_STACK w; mem := s; trace := trace w |}.
Definition set_stack (st : list Handler) (w : World) : World :=
  {| HANDLER_STACK := st; mem := mem w; trace := trace w |}.

Definition get_stack : M (list Handler) := fun w => (Return (HANDLER_STACK w), w).

(** [handler.process(msg)] *)
Definition call_process (h : Handler) (m : Msg) : M Msg :=
  fun w => let '(m', s') := process h m (mem w) in
           (Return m', set_mem s' (emit (EvProcess (hid h)) w)).

(** [handler.postprocess(msg)] *)
Definition call_postprocess (h : Handler) (m : Msg) : M Msg :=
  fun w => let '(m', s') := postprocess h m (mem w) in
           (Return m', set_mem s' (emit (EvPostprocess (hid h)) w)).

(** Calling [f] with positional arguments [a] and keyword arguments [k]. *)
Definition call_fn (f : Callable) (a : list pyval) (k : gmap string pyval) : M pyval :=
  fun w => let '(v, s') := call f a k (mem w) in
           (Return v, set_mem s' (emit (EvCall (fid f) a k) w)).

(** *** Handler.__enter__ and Handler.__exit__ *)

Definition __enter__ (self : Handler) : M unit :=
  fun w => (Return tt, set_stack (HANDLER_STACK w ++ [self]) w).

Definition __exit__ (self : Handler) : M unit :=
  fun w => match last (HANDLER_STACK w) with
           | None => (Raise IndexError, w)
           | Some top =>
               if is_ top self
               then (Return tt, set_stack (removelast (HANDLER_STACK w)) w)
               else (Raise (AssertionError ""), w)
           end.

(** Entering a list of handlers one after the other, and leaving a list
    of handlers one after the other. *)
Fixpoint enter_all (hs : list Handler) : M unit :=
  match hs with
  | [] => ret tt
  | h :: hs' => bind (__enter__ h) (fun _ => enter_all hs')
  end.

Fixpoint exit_all (hs : list Handler) : M unit :=
  match hs with
  | [] => ret tt
  | h :: hs' => bind (__exit__ h) (fun _ => exit_all hs')
  end.

(** *** apply_stack *)

(** The first loop; [pointer] is the loop variable, unbound until the
    body has run once. *)
Fixpoint process_loop (it : list (nat * Handler)) (pointer : option nat) (msg : Msg)
  : M (option nat * Msg) :=
  match it with
  | [] => ret (pointer, msg)
  | (i, handler) :: it' =>
      bind (call_process handler msg) (fun msg' =>
      if get_stop msg' then ret (Some i, msg')
      else process_loop it' (Some i) msg')
  end.

(** The second loop. *)
Fixpoint postprocess_loop (hs : list Handler) (msg : Msg) : M Msg :=
  match hs with
  | [] => ret msg
  | handler :: hs' =>
      bind (call_postprocess handler msg) (fun msg' => postprocess_loop hs' msg')
  end.

(** [if msg["value"] is None]: fill it by calling [msg["fn"]] on the
    message's [args] and [kwargs]. *)
Definition fill_value (msg : Msg) : M Msg :=
  if is_None (value msg)
  then bind (call_fn (fn msg) (args msg) (kwargs msg)) (fun v => ret (set_value v msg))
  else ret msg.

(** [apply_stack(msg)]: the process loop over [reversed(HANDLER_STACK)],
    the call of the wrapped function, the postprocess loop over the slice
    [HANDLER_STACK[-pointer-1:]], and [return msg]. Hooks and the wrapped
    function return normally and do not touch [HANDLER_STACK]. *)
Definition apply_stack (msg : Msg) : M Msg :=
  bind get_stack (fun st =>
  bind (process_loop (enumerate (rev st)) None msg) (fun '(pointer, msg1) =>
  bind (fill_value msg1) (fun msg2 =>
  match pointer with
  | None => raise (UnboundLocalError "pointer")
  | Some p =>
      bind get_stack (fun st' =>
      postprocess_loop (slice_from (- Z.of_nat p - 1) st') msg2)
  end))).

(** *** effectful *)

(** [kwargs.pop("name", None)]: the value popped and the dictionary left. *)
Definition pop_name (k : gmap string pyval) : pyval * gmap string pyval :=
  (default VNone (k !! "name"%string), delete "name"%string k).

(** The dictionary [initial_msg]; the [kwargs] it holds are the caller's
    dictionary after the pop. *)
Definition initial_msg (ty : string) (f : Callable)
    (a : list pyval) (k : gmap string pyval) : Msg :=
  let '(nm, k') := pop_name k in
  {| label := {| term_type := ty; name := nm |};
     fn := f; args := a; kwargs := k'; value := VNone; stop := None |}.

(** The wrapper [_fn] that [effectful(term_type)(fn)] returns, applied to
    positional arguments [a] and keyword arguments [k]. *)
Definition effectful (ty : string) (f : Callable)
    (a : list pyval) (k : gmap string pyval) : M pyval :=
  bind get_stack (fun st =>
  match st with
  | [] => call_fn f a k
  | _ => bind (apply_stack (initial_msg ty f a k)) (fun m => ret (value m))
  end).

(** *** Reference semantics of the two passes

    What the message and the program state are after a list of handlers
    have each run one hook, in list order and with no early exit. *)

Definition run_process (hs : list Handler) (ms : Msg * S) : Msg * S :=
  fold_left (fun acc h => process h (fst acc) (snd acc)) hs ms.

Definition run_postprocess (hs : list Handler) (ms : Msg * S) : Msg * S :=
  fold_left (fun acc h => postprocess h (fst acc) (snd acc)) hs ms.

(** The call of the wrapped function, when the value is still [None]. *)
Definition run_fill (ms : Msg * S) : Msg * S :=
  if is_None (value (fst ms))
  then let r := call (fn (fst ms)) (args (fst ms)) (kwargs (fst ms)) (snd ms) in
       (set_value (fst r) (fst ms), snd r)
  else ms.

(** The call event a message gives rise to between the two passes. *)
Definition call_events (m : Msg) : list Event :=
  if is_None (value m) then [EvCall (fid (fn m)) (args m) (kwargs m)] else [].

Definition is_call (e : Event) : bool :=
  match e with EvCall _ _ _ => true | _ => false end.

(** What the caller of [apply_stack] holds afterwards: Python is
    dynamically typed, so a returned object is either a plain value or a
    message dictionary. *)
Inductive PyObj : Type :=
  | ObjVal (v : pyval)
  | ObjMsg (m : Msg).

Definition returned_object (r : Outcome Msg) : Outcome PyObj :=
  match r with
  | Return m => Return (ObjMsg m)
  | Raise e => Raise e
  end.

(** *** The with statement, Handler.__call__ and default_handler *)

(** [with self: body]: [__enter__], the body, then [__exit__] on the way
    out, whether the body has returned or raised. [__exit__] returns
    [None], so an exception of the body goes on after it; an exception of
    [__exit__] itself takes its place. *)
Definition with_ {A} (self : Handler) (body : M A) : M A :=
  bind (__enter__ self) (fun _ w =>
    match body w with
    | (Return a, w') =>
        match __exit__ self w' with
        | (Return _, w'') => (Return a, w'')
        | (Raise e, w'') => (Raise e, w'')
        end
    | (Raise e, w') =>
        match __exit__ self w' with
        | (Return _, w'') => (Raise e, w'')
        | (Raise e', w'') => (Raise e', w'')
        end
    end).

(** [Handler.__call__]; [body] is the call of [self.fn] on the arguments,
    which may itself run effectful operations. *)
Definition __call__ {A} (self : Handler) (body : M A) : M A := with_ self body.

(** The wrapper [_fn] of [default_handler(handler)(fn)]; [fn_is_Handler]
    is [isinstance(fn, Handler)] and [body] the call of [fn] on the
    arguments. *)
Definition default_handler {A} (handler : Handler) (fn_is_Handler : bool) (body : M A)
  : M A :=
  bind get_stack (fun st =>
  match st with
  | [] => if negb fn_is_Handler then with_ handler body else body
  | _ => body
  end).

End Stack.

Arguments Callable : clear implicits.
Arguments Msg : clear implicits.
Arguments Handler : clear implicits.
Arguments World : clear implicits.
Arguments PyObj : clear implicits.

(** *** OpRegistry.register *)

Section Registry.

(** Operation kinds (the classes passed as [term_types]) and the
    registered override functions. *)
Context {K : Type} `{Countable K} {F : Type}.

(** The two class-level dictionaries. *)
Record OpRegistry : Type := mkOpRegistry {
  _terms_processed : gmap K F;
  _terms_postprocessed : gmap K F
}.

(** The inner decorator [_fn] of [register( *term_types, post)], applied to
    [fn]: the loop over [term_types]. *)
Fixpoint register (post : bool) (term_types : list K) (fn : F) (cls : OpRegistry)
  : Outcome F * OpRegistry :=
  match term_types with
  | [] => (Return fn, cls)
  | term_type :: rest =>
      if post then
        if decide (term_type ∈ dom (_terms_postprocessed cls))
        then (Raise (AssertionError "cannot override"), cls)
        else register post rest fn
               {| _terms_processed := _terms_processed cls;
                  _terms_postprocessed := <[term_type := fn]> (_terms_postprocessed cls) |}
      else
        if decide (term_type ∈ dom (_terms_processed cls))
        then (Raise (AssertionError "cannot override"), cls)
        else register post rest fn
               {| _terms_processed := <[term_type := fn]> (_terms_processed cls);
                  _terms_postprocessed := _terms_postprocessed cls |}
  end.

(** One assignment [cls._terms_...[term_type] = fn]. *)
Definition put (post : bool) (k : K) (fn : F) (cls : OpRegistry) : OpRegistry :=
  if post
  then {| _terms_processed := _terms_processed cls;
          _terms_postprocessed := <[k := fn]> (_terms_postprocessed cls) |}
  else {| _terms_processed := <[k := fn]> (_terms_processed cls);
          _terms_postprocessed := _terms_postprocessed cls |}.

(** The dictionary a registration with the given [post] flag writes to. *)
Definition mapping (post : bool) (cls : OpRegistry) : gmap K F :=
  if post then _terms_postprocessed cls else _terms_processed cls.

End Registry.

Arguments OpRegistry K {_ _} F.

(** *** OpRegistry.process and OpRegistry.postprocess *)

Section RegistryHandler.

Context {S : Type}.

(** [OpRegistry.process]: when the label of the message is a key of
    [_terms_processed], the function stored under it is called on the
    message's arguments and its result becomes the value. The lookup is
    by the label instance itself, as the key it is. *)
Definition OpRegistry_process (cls : OpRegistry Key (Callable S)) (msg : Msg S) (s : S)
  : Msg S * S :=
  match _terms_processed cls !! Label_as_key (label msg) with
  | Some f => let r := call f (args msg) (kwargs msg) s in (set_value (fst r) msg, snd r)
  | None => (msg, s)
  end.

(** [OpRegistry.postprocess], the same on [_terms_postprocessed]. *)
Definition OpRegistry_postprocess (cls : OpRegistry Key (Callable S)) (msg : Msg S) (s : S)
  : Msg S * S :=
  match _terms_postprocessed cls !! Label_as_key (label msg) with
  | Some f => let r := call f (args msg) (kwargs msg) s in (set_value (fst r) msg, snd r)
  | None => (msg, s)
  end.

(** An [OpRegistry] object, with the class dictionaries as they are while
    it is on the stack. *)
Definition OpRegistry_handler (id : nat) (cls : OpRegistry Key (Callable S)) : Handler S :=
  {| hid := id;
     process := OpRegistry_process cls;
     postprocess := OpRegistry_postprocess cls |}.

End RegistryHandler.

(** *** Sample objects

    A wrapped function that returns 7, a hook that supplies the value 5, a
    hook that marks the message, and a stack of three handlers pushed in
    the order 1, 2, 3. *)

Definition seven : Callable unit :=
  {| fid := 0; call := fun _ _ s => (VInt 7, s) |}.

Definition supplier (id : nat) : Handler unit :=
  {| hid := id;
     process := fun m s => (set_value (VInt 5) m, s);
     postprocess := fun m s => (m, s) |}.

Definition stopper (id : nat) : Handler unit :=
  {| hid := id;
     process := fun m s =>
       ({| label := label m; fn := fn m; args := args m; kwargs := kwargs m;
           value := value m; stop := Some (VBool true) |}, s);
     postprocess := fun m s => (m, s) |}.

Definition sample_stack : list (Handler unit) :=
  [base_Handler 1; stopper 2; base_Handler 3].

Definition sample_kwargs : gmap string pyval :=
  {[ "name"%string := VStr "z"; "scale"%string := VInt 2 ]}.

Definition sample_registry : OpRegistry string nat :=
  {| _terms_processed := {[ "add"%string := 1%nat ]}; _terms_postprocessed := ∅ |}.

Definition sample_msg : Msg unit :=
  {| label := {| term_type := "sample"; name := VNone |};
     fn := seven; args := [VInt 1]; kwargs := ∅; value := VNone; stop := None |}.

(** A function that returns 5, a registry with nothing in it, and the
    label that [effectful] builds for the kind ["sample"] when no name is
    given. *)
Definition sample_label : Label := {| term_type := "sample"; name := VNone |}.

Definition five : Callable unit :=
  {| fid := 1; call := fun _ _ s => (VInt 5, s) |}.

Definition no_overrides : OpRegistry Key (Callable unit) :=
  {| _terms_processed := ∅; _terms_postprocessed := ∅ |}.

Definition sample_world : World unit :=
  {| HANDLER_STACK := sample_stack; mem := tt; trace := [] |}.

End handlers.

(** ** examples/eeg_funsor_slds.py *)

Module eeg_funsor_slds.

#[global] Instance Outcome_ret : MRet Outcome := fun _ a => Return a.
#[global] Instance Outcome_bind : MBind Outcome := fun _ _ k c =>
  match c with
  | Return a => k a
  | Raise e => Raise e
  end.

(** *** Terms, seen through their free names *)

(** Modelled from the spec: the term classes of [funsor.terms], which
    [log_prob] builds with but which are not among the sources. A term is
    observed through [inputs], the names free in it; a [Variable] (here [Variable_]) also has
    the attribute [name]. *)
Inductive Funsor : Type :=
  | Variable_ (name : string)
  | Term (free : gset string).

Definition inputs (f : Funsor) : gset string :=
  match f with
  | Variable_ x => {[ x ]}
  | Term free => free
  end.

(** [f.name] *)
Definition name_of (f : Funsor) : Outcome string :=
  match f with
  | Variable_ x => Return x
  | Term _ => Raise (AttributeError "name")
  end.

(** Modelled from the spec: [f + g] refers to the free names of both. *)
Definition add (f g : Funsor) : Funsor := Term (inputs f ∪ inputs g).

(** Modelled from the spec: the substitution [f(x1=t1, ..., xn=tn)].
    A name that is not in [inputs f] is left out (a no-op); a name that is
    gives way to the free names of its term. *)
Definition subst (f : Funsor) (subs : list (string * Funsor)) : Funsor :=
  Term ((inputs f ∖ list_to_set (map fst subs))
        ∪ ⋃ (map (fun xt => if decide (fst xt ∈ inputs f) then inputs (snd xt) else ∅)
                  subs)).

(** Modelled from the spec: [f.reduce(op, names)] removes the names from
    the inputs, and is a no-op for a name that is not among them. *)
Definition reduce (f : Funsor) (names : gset string) : Funsor :=
  Term (inputs f ∖ names).

(** Modelled from the spec: [dist.Categorical(probs, value=v)] refers to
    the free names of its two arguments. *)
Definition Categorical (probs value : Funsor) : Funsor :=
  Term (inputs probs ∪ inputs value).

(** Modelled from the spec: [matrix_and_mvn_to_funsor(matrix, mvn,
    event_dims, x_name, y_name)] is a term over the named dimensions it is
    given. *)
Definition matrix_and_mvn_to_funsor (event_dims : list string) (x_name y_name : string)
  : Funsor :=
  Term (list_to_set event_dims ∪ {[ x_name; y_name ]}).

(** ['s_{}'.format(t)] and ['x_{}'.format(t)] *)
Definition s_ (t : Z) : string := "s_" +:+ pretty t.
Definition x_ (t : Z) : string := "x_" +:+ pretty t.

(** *** The model object *)

Record SLDS : Type := mkSLDS {
  num_components : nat;
  hidden_dim : nat;
  obs_dim : nat;
  moment_matching_lag : Z;
  fine_transition_noise : bool;
  fine_observation_matrix : bool;
  fine_observation_noise : bool;
  fine_transition_matrix : bool
}.

(** [self.x_init_mvn], built over the real input ['x_0']. *)
Definition x_init_mvn : Funsor := Term {[ "x_0"%string ]}.

(** The terms of [get_tensors_and_dists] that [log_prob] uses. *)
Definition trans_probs : Funsor := Term {[ "s"%string ]}.

Definition x_trans_dist (self : SLDS) : Funsor :=
  let event_dims :=
    if fine_transition_matrix self || fine_transition_noise self then ["s"%string] else [] in
  matrix_and_mvn_to_funsor event_dims "x" "y".

Definition y_dist (self : SLDS) : Funsor :=
  let event_dims :=
    if fine_observation_matrix self || fine_observation_noise self then ["s"%string] else [] in
  matrix_and_mvn_to_funsor event_dims "x" "y".

(** *** SLDS.log_prob *)

(** The local variables of [log_prob], and the names each [reduce] has
    taken out of the inputs of the accumulated term, in order. *)
Record Locals : Type := mkLocals {
  log_prob_term : Funsor;
  s_vars : gmap Z Funsor;
  x_vars : gmap Z Funsor;
  reduced : list string
}.

(** [d[k]] on a dictionary. *)
Definition getitem (d : gmap Z Funsor) (k : Z) : Outcome Funsor :=
  match d !! k with
  | Some f => Return f
  | None => Raise KeyError
  end.

(** A data row used as an argument of a term: a tensor, with no free name. *)
Definition row_term {Row : Type} (y : Row) : Funsor := Term ∅.

(** [log_prob = log_prob.reduce(ops.logaddexp, frozenset([s_vars[k].name,
    x_vars[k].name]))] *)
Definition reduce_step (k : Z) (l : Locals) : Outcome Locals :=
  sk ← getitem (s_vars l) k;
  sname ← name_of sk;
  xk ← getitem (x_vars l) k;
  xname ← name_of xk;
  Return {| log_prob_term := reduce (log_prob_term l) {[ sname; xname ]};
            s_vars := s_vars l; x_vars := x_vars l;
            reduced := reduced l
                       ++ List.filter (fun x => bool_decide (x ∈ inputs (log_prob_term l)))
                            [sname; xname] |}.

Definition set_log_prob (f : Funsor) (l : Locals) : Locals :=
  {| log_prob_term := f; s_vars := s_vars l; x_vars := x_vars l; reduced := reduced l |}.

(** The body of the loop over [enumerate(data)]. *)
Definition log_prob_body {Row : Type} (self : SLDS) (t : Z) (y : Row) (l0 : Locals)
  : Outcome Locals :=
  let l1 := {| log_prob_term := log_prob_term l0;
               s_vars := <[t := Variable_ (s_ t)]> (s_vars l0);
               x_vars := <[t := Variable_ (x_ t)]> (x_vars l0);
               reduced := reduced l0 |} in
  sprev ← getitem (s_vars l1) (t - 1);
  st ← getitem (s_vars l1) t;
  let l2 := set_log_prob
              (add (log_prob_term l1) (Categorical (subst trans_probs [("s"%string, sprev)]) st))
              l1 in
  l3 ← (if t =? 0 then
          xt ← getitem (x_vars l2) t;
          Return (set_log_prob
                    (add (log_prob_term l2) (subst x_init_mvn [("value"%string, xt)])) l2)
        else
          st ← getitem (s_vars l2) t;
          xprev ← getitem (x_vars l2) (t - 1);
          xt ← getitem (x_vars l2) t;
          Return (set_log_prob
                    (add (log_prob_term l2)
                       (subst (x_trans_dist self)
                          [("s"%string, st); ("x"%string, xprev); ("y"%string, xt)])) l2));
  l4 ← (if t >? moment_matching_lag self - 1
        then reduce_step (t - moment_matching_lag self) l3
        else Return l3);
  st ← getitem (s_vars l4) t;
  xt ← getitem (x_vars l4) t;
  Return (set_log_prob
            (add (log_prob_term l4)
               (subst (y_dist self)
                  [("s"%string, st); ("x"%string, xt); ("y"%string, row_term y)])) l4).

Fixpoint log_prob_loop {Row : Type} (self : SLDS) (it : list (nat * Row)) (l : Locals)
  : Outcome Locals :=
  match it with
  | [] => Return l
  | (t, y) :: it' =>
      l' ← log_prob_body self (Z.of_nat t) y l;
      log_prob_loop self it' l'
  end.

(** The final loop [for t in range(self.moment_matching_lag)]. *)
Fixpoint final_loop (self : SLDS) (T : Z) (ts : list nat) (l : Locals) : Outcome Locals :=
  match ts with
  | [] => Return l
  | t :: ts' =>
      l' ← reduce_step (T - moment_matching_lag self + Z.of_nat t) l;
      final_loop self T ts' l'
  end.

(** Python's [range(n)]. *)
Definition range (n : Z) : list nat := seq 0 (Z.to_nat n).

Definition log_prob_init : Locals :=
  {| log_prob_term := Term ∅;
     s_vars := {[ (-1) := Term ∅ ]};
     x_vars := ∅;
     reduced := [] |}.

(** [SLDS.log_prob(data)], returning the locals at the [return]. *)
Definition log_prob {Row : Type} (self : SLDS) (data : list Row) : Outcome Locals :=
  l ← log_prob_loop self (enumerate data) log_prob_init;
  let T := Z.of_nat (length data) in
  l' ← final_loop self T (range (moment_matching_lag self)) l;
  if decide (inputs (log_prob_term l') = ∅)
  then Return l'
  else Raise (AssertionError "unexpected free variables remain").

(** *** Tensor shapes

    The operations of the numeric backend that [filter_and_predict] uses,
    on the shape of a tensor (the list of its dimension sizes). *)

Definition shape : Type := list nat.

(** Two dimension sizes broadcast when they are equal or one of them is 1. *)
Definition broadcast_dim (x y : nat) : Outcome nat :=
  if Nat.eqb x y then Return x
  else if Nat.eqb x 1 then Return y
  else if Nat.eqb y 1 then Return x
  else Raise (RuntimeError "sizes do not broadcast").

(** Broadcasting of two shapes, both given from the last dimension on. *)
Fixpoint broadcast_rev (a b : list nat) : Outcome (list nat) :=
  match a, b with
  | [], _ => Return b
  | _, [] => Return a
  | x :: a', y :: b' =>
      d ← broadcast_dim x y;
      r ← broadcast_rev a' b';
      Return (d :: r)
  end.

(** The shape of an elementwise operation ([a * b], [a - b], [a / b]). *)
Definition broadcast (a b : shape) : Outcome shape :=
  r ← broadcast_rev (rev a) (rev b);
  Return (rev r).

(** [torch.stack(ts)]: a new leading dimension; the list must not be
    empty and the tensors must have one shape. *)
Definition torch_stack (ts : list shape) : Outcome shape :=
  match ts with
  | [] => Raise (RuntimeError "stack expects a non-empty TensorList")
  | s :: rest =>
      if forallb (fun s' => bool_decide (s' = s)) rest
      then Return (length ts :: s)
      else Raise (RuntimeError "stack expects each tensor to be equal size")
  end.

(** [a.unsqueeze(-1)] and [a.unsqueeze(-2)] *)
Definition unsqueeze_m1 (a : shape) : shape := a ++ [1%nat].
Definition unsqueeze_m2 (a : shape) : Outcome shape :=
  match rev a with
  | d :: r => Return (rev (d :: 1%nat :: r))
  | [] => Raise IndexError
  end.

(** [a.squeeze(-2)]: the dimension goes when its size is 1. *)
Definition squeeze_m2 (a : shape) : Outcome shape :=
  match rev a with
  | d :: n :: r => if Nat.eqb n 1 then Return (rev (d :: r)) else Return a
  | _ => Raise IndexError
  end.

(** [torch.matmul(a, b)] for operands of two dimensions or more: a matrix
    product on the last two dimensions, the others broadcast. (With an
    operand of fewer dimensions, which does not occur here, this model
    raises.) *)
Definition matmul (a b : shape) : Outcome shape :=
  match rev a, rev b with
  | m :: n :: ba, p :: m' :: bb =>
      if Nat.eqb m m'
      then r ← broadcast_rev ba bb; Return (rev (p :: n :: r))
      else Raise (RuntimeError "mat1 and mat2 shapes cannot be multiplied")
  | _, _ => Raise (RuntimeError "matmul: operand with fewer than two dimensions")
  end.

(** [a.sum(-1, keepdim=True)], [a.sum(-2)], [a.mean(-1)] and [a.size(-1)] *)
Definition sum_m1_keepdim (a : shape) : Outcome shape :=
  match rev a with
  | d :: r => Return (rev (1%nat :: r))
  | [] => Raise IndexError
  end.
Definition sum_m2 (a : shape) : Outcome shape :=
  match rev a with
  | d :: n :: r => Return (rev (d :: r))
  | _ => Raise IndexError
  end.
Definition mean_m1 (a : shape) : Outcome shape :=
  match rev a with
  | d :: r => Return (rev r)
  | [] => Raise IndexError
  end.
Definition size_m1 (a : shape) : Outcome nat :=
  match rev a with
  | d :: r => Return d
  | [] => Raise IndexError
  end.

(** [torch.cat([a, b], dim=-2)] *)
Definition torch_cat_m2 (a b : shape) : Outcome shape :=
  match rev a, rev b with
  | d :: n :: r, d' :: n' :: r' =>
      if bool_decide (d = d' /\ r = r')
      then Return (rev (d :: (n + n')%nat :: r))
      else Raise (RuntimeError "sizes of tensors must match except in dimension -2")
  | _, _ => Raise IndexError
  end.

(** [l[i]] on a Python list, for [i >= 0]. *)
Definition list_getitem {A} (l : list A) (i : nat) : Outcome A :=
  match l !! i with
  | Some a => Return a
  | None => Raise IndexError
  end.

(** [l[-1]] *)
Definition list_last {A} (l : list A) : Outcome A :=
  match last l with
  | Some a => Return a
  | None => Raise IndexError
  end.

(** *** SLDS.filter_and_predict *)

(** Modelled from the spec: [funsor_to_cat_and_mvn(term, 0, (name,))]
    gives a categorical and a multivariate normal of the numeric backend,
    batched over the components: logits of shape [(K,)] and a mean of
    shape [(K, hidden_dim)]. *)
Record CatMvn : Type := mkCatMvn { logits : shape; mean : shape }.

Definition funsor_to_cat_and_mvn (self : SLDS) : CatMvn :=
  {| logits := [num_components self]; mean := [num_components self; hidden_dim self] |}.

(** The shape of [self.observation_matrix], set in [__init__]. *)
Definition observation_matrix (self : SLDS) : shape :=
  if fine_observation_matrix self
  then [num_components self; hidden_dim self; obs_dim self]
  else [hidden_dim self; obs_dim self].

(** The lists [filter_and_predict] fills while it goes over the data. The
    terms and numbers they hold are left out: what is returned has a shape
    that depends on how many entries there are, not on what they are. *)
Record Lists : Type := mkLists {
  predictive_dists : list CatMvn;
  filtering_dists : list unit;
  test_LLs : list unit
}.

(** The loop over [enumerate(data)]. *)
Fixpoint filter_loop {Row : Type} (self : SLDS) (smoothing : bool)
    (it : list (nat * Row)) (l : Lists) : Lists :=
  match it with
  | [] => l
  | (t, y) :: it' =>
      let l1 :=
        if Nat.ltb 0 t
        then {| predictive_dists := predictive_dists l ++ [funsor_to_cat_and_mvn self];
                filtering_dists := filtering_dists l;
                test_LLs := test_LLs l ++ [tt] |}
        else l in
      let l2 :=
        if smoothing
        then {| predictive_dists := predictive_dists l1;
                filtering_dists := filtering_dists l1 ++ [tt];
                test_LLs := test_LLs l1 |}
        else l1 in
      filter_loop self smoothing it' l2
  end.

(** The backward recursion [for t in reversed(range(T - 1))], which reads
    [predictive_dists[t]] and [filtering_dists[t]] and appends to
    [smoothing_dists]. *)
Fixpoint smoothing_loop (l : Lists) (ts : list nat) (smoothing_dists : list unit)
  : Outcome (list unit) :=
  match ts with
  | [] => Return smoothing_dists
  | t :: ts' =>
      _ ← list_last smoothing_dists;
      _ ← list_getitem (predictive_dists l) t;
      _ ← list_getitem (filtering_dists l) t;
      smoothing_loop l ts' (smoothing_dists ++ [tt])
  end.

(** The mean function of a list of (categorical, normal) pairs: the two
    [torch.stack] calls, the product with the observation matrix and the
    weighted sum over the components. *)
Definition mean_function (self : SLDS) (dists : list CatMvn) : Outcome shape :=
  means ← torch_stack (map mean dists);
  m1 ← unsqueeze_m2 means;
  m2 ← matmul m1 (observation_matrix self);
  means ← squeeze_m2 m2;
  probs ← torch_stack (map logits dists);
  total ← sum_m1_keepdim probs;
  probs ← broadcast probs total;
  weighted ← broadcast (unsqueeze_m1 probs) means;
  sum_m2 weighted.

(** [SLDS.filter_and_predict(data, smoothing)]: the shapes of the tensors
    of the returned tuple. [data] has one row of [obs_dim] readings per
    time step. *)
Definition filter_and_predict {Row : Type} (self : SLDS) (data : list Row)
    (smoothing : bool) : Outcome (list shape) :=
  let l := filter_loop self smoothing (enumerate data)
             {| predictive_dists := []; filtering_dists := []; test_LLs := [] |} in
  smoothing_dists ←
    (if smoothing then
       first ← list_last (filtering_dists l);
       let T := length data in
       smoothing_loop l (rev (range (Z.of_nat T - 1))) [first]
     else Return []);
  predictive_means ← mean_function self (predictive_dists l);
  ydim ← size_m1 predictive_means;
  let pred_mean_init := [1%nat; ydim] in
  predictive_means ← torch_cat_m2 pred_mean_init predictive_means;
  diff ← broadcast predictive_means [length data; obs_dim self];
  predictive_mse ← mean_m1 diff;
  if smoothing then
    smoothing_means ←
      mean_function self (map (fun _ => funsor_to_cat_and_mvn self) (rev smoothing_dists));
    Return [predictive_mse; [length (test_LLs l)]; predictive_means; smoothing_means]
  else
    Return [predictive_mse; [length (test_LLs l)]].

(** *** SLDS.__init__ *)

(** [SLDS.__init__]: the two assertions on the arguments; the object built
    holds the arguments. *)
Definition SLDS_init (num_components hidden_dim obs_dim : nat)
    (fine_transition_noise fine_observation_matrix fine_observation_noise
     fine_transition_matrix : bool) (moment_matching_lag : Z) : Outcome SLDS :=
  if moment_matching_lag >? 0 then
    if fine_transition_noise || fine_observation_matrix || fine_observation_noise
       || fine_transition_matrix
    then Return {| num_components := num_components; hidden_dim := hidden_dim;
                   obs_dim := obs_dim; moment_matching_lag := moment_matching_lag;
                   fine_transition_noise := fine_transition_noise;
                   fine_observation_matrix := fine_observation_matrix;
                   fine_observation_noise := fine_observation_noise;
                   fine_transition_matrix := fine_transition_matrix |}
    else Raise (AssertionError "The continuous dynamics need to be coupled to the discrete dynamics in at least one way [use at least one of --ftn --ftm --fon --fom]")
  else Raise (AssertionError "").

(** The names [log_prob] introduces for the steps [0 .. T-1], in order. *)
Definition step_names (T : nat) : list string :=
  flat_map (fun t => [s_ (Z.of_nat t); x_ (Z.of_nat t)]) (seq 0 T).

(** The names of the steps [a .. b-1], as a set. *)
Definition window (a b : nat) : gset string :=
  list_to_set (flat_map (fun t => [s_ (Z.of_nat t); x_ (Z.of_nat t)]) (seq a (b - a))).

(** The dictionaries after [k] rounds of the loop. *)
Definition vars_ok (k : nat) (l : Locals) : Prop :=
  s_vars l !! (-1) = Some (Term ∅) /\
  (forall t : nat, (t < k)%nat -> s_vars l !! Z.of_nat t = Some (Variable_ (s_ (Z.of_nat t)))) /\
  (forall t : nat, (t < k)%nat -> x_vars l !! Z.of_nat t = Some (Variable_ (x_ (Z.of_nat t)))).

(** The oldest step whose names are still free after [k] rounds. *)
Definition oldest (self : SLDS) (k : nat) : nat :=
  Z.to_nat (Z.of_nat k - moment_matching_lag self).

(** The loop invariant of [log_prob] after [k] rounds. *)
Definition log_prob_inv (self : SLDS) (k : nat) (l : Locals) : Prop :=
  vars_ok k l /\
  inputs (log_prob_term l) = window (oldest self k) k /\
  reduced l = step_names (oldest self k).

Definition sample_slds : SLDS :=
  {| num_components := 2; hidden_dim := 5; obs_dim := 14;
     moment_matching_lag := 2; fine_transition_noise := false;
     fine_observation_matrix := false; fine_observation_noise := false;
     fine_transition_matrix := true |}.

End eeg_funsor_slds.

(** ** funsor/pyro/distribution.py *)

Module distribution.

(** The names the module binds at its top level: those of its [import]
    statements and the class it defines. *)
Definition module_globals : gset string :=
  list_to_set
    ["OrderedDict"; "dist"; "torch"; "constraints"; "Contraction"; "Delta"; "bint";
     "DIM_TO_NAME"; "funsor_to_tensor"; "tensor_to_funsor"; "Funsor";
     "FunsorDistribution"]%string.

(** The names that are local to [mode]: its parameter and every name its
    body assigns. *)
Definition mode_locals : gset string :=
  list_to_set
    ["self"; "tape"; "root"; "targets"; "argmax"; "delta"; "ndims"; "value"]%string.

(** The four names of the body of [mode] that nothing defines. *)
Definition undefined_names : list string :=
  ["AdjointTape"; "ops"; "delta"; "sample_shape"]%string.

(** The built-in functions of Python 3. *)
Definition python_builtins : gset string :=
  list_to_set
    ["abs"; "all"; "any"; "ascii"; "bin"; "bool"; "breakpoint"; "bytearray"; "bytes";
     "callable"; "chr"; "classmethod"; "compile"; "complex"; "delattr"; "dict"; "dir";
     "divmod"; "enumerate"; "eval"; "exec"; "filter"; "float"; "format"; "frozenset";
     "getattr"; "globals"; "hasattr"; "hash"; "help"; "hex"; "id"; "input"; "int";
     "isinstance"; "issubclass"; "iter"; "len"; "list"; "locals"; "map"; "max";
     "memoryview"; "min"; "next"; "object"; "oct"; "open"; "ord"; "pow"; "print";
     "property"; "range"; "repr"; "reversed"; "round"; "set"; "setattr"; "slice";
     "sorted"; "staticmethod"; "str"; "sum"; "super"; "tuple"; "type"; "vars"; "zip";
     "__import__"]%string.

(** An instance, as [__init__] leaves it: the inputs of [funsor_dist],
    which hold ["value"], and the two shapes. *)
Record FunsorDistribution : Type := mkFunsorDistribution {
  funsor_dist : gset string;
  batch_shape : list nat;
  event_shape : list nat
}.

Section Frame.

(** The namespace of built-in names. *)
Variable builtins : gset string.

(** A computation in the frame of a call: it reads and extends the set of
    local names that are bound. *)
Definition Frame (A : Type) : Type := gset string -> Outcome A * gset string.

Definition fret {A} (a : A) : Frame A := fun bound => (Return a, bound).
Definition fbind {A B} (c : Frame A) (k : A -> Frame B) : Frame B :=
  fun bound => match c bound with
               | (Return a, bound') => k a bound'
               | (Raise e, bound') => (Raise e, bound')
               end.
Definition fseq (c : Frame unit) (k : Frame pyval) : Frame pyval := fbind c (fun _ => k).

(** Reading a name: a local name must have been bound; any other name is
    looked up in the module's globals and then in the built-ins. *)
Definition load (x : string) : Frame unit :=
  fun bound =>
    if decide (x ∈ mode_locals)
    then if decide (x ∈ bound) then (Return tt, bound)
         else (Raise (UnboundLocalError x), bound)
    else if decide (x ∈ module_globals ∪ builtins) then (Return tt, bound)
         else (Raise (NameError x), bound).

(** Assigning a local name. *)
Definition store (x : string) : Frame unit :=
  fun bound => (Return tt, {[ x ]} ∪ bound).

Fixpoint loads (xs : list string) : Frame unit :=
  match xs with
  | [] => fret tt
  | x :: xs' => fbind (load x) (fun _ => loads xs')
  end.

(** The body of [mode], statement by statement: the names each statement
    reads, in the order of evaluation, then the name it assigns. Attribute
    accesses and calls on the objects read are taken to go through. The
    body has no [return], so its end gives [None]. *)
Definition mode_body : Frame pyval :=
  (* with AdjointTape() as tape: *)
  fseq (loads ["AdjointTape"%string]) (fseq (store "tape")
  (* root = self.funsor_dist.reduce(ops.max, "value") *)
  (fseq (loads ["self"; "ops"]%string) (fseq (store "root")
  (* targets = (self.funsor_dist,) *)
  (fseq (loads ["self"]%string) (fseq (store "targets")
  (* argmax = tape.adjoint(ops.max, ops.add, root, targets) *)
  (fseq (loads ["tape"; "ops"; "ops"; "root"; "targets"]%string) (fseq (store "argmax")
  (* if isinstance(delta, Contraction): ... delta = delta.terms[0] *)
  (fseq (loads ["isinstance"; "delta"; "Contraction"]%string)
  (* assert isinstance(delta, Delta) *)
  (fseq (loads ["isinstance"; "delta"; "Delta"]%string)
  (* ndims = len(sample_shape) + len(self.batch_shape) + len(self.event_shape) *)
  (fseq (loads ["len"; "sample_shape"; "len"; "self"; "len"; "self"]%string)
  (fseq (store "ndims")
  (* value = funsor_to_tensor(delta.terms[0][1][0], ndims=ndims) *)
  (fseq (loads ["funsor_to_tensor"; "delta"; "ndims"]%string) (fseq (store "value")
  (fret VNone)))))))))))))).

(** [self.mode()]: the body runs in a frame where only [self] is bound.
    (The decorator [torch.no_grad()] runs the body in a context manager
    and lets its exceptions through.) *)
Definition mode (self : FunsorDistribution) : Outcome pyval :=
  fst (mode_body {[ "self"%string ]}).

End Frame.

(** *** FunsorDistribution._sample_delta *)

(** Python's [l[i]] on a list, for an index of either sign. *)
Definition py_getitem {A} (l : list A) (i : Z) : Outcome A :=
  let len := Z.of_nat (length l) in
  let j := if i <? 0 then i + len else i in
  if (0 <=? j) && (j <? len)
  then match l !! Z.to_nat j with
       | Some a => Return a
       | None => Raise IndexError
       end
  else Raise IndexError.

(** Python's [range(a, b)]. *)
Definition range2 (a b : Z) : list Z :=
  map (fun i => a + Z.of_nat i) (seq 0 (Z.to_nat (b - a))).

(** The assignment [d[k] = v] on an [OrderedDict]: a key that is there
    keeps its place. *)
Fixpoint odict_set (d : list (string * nat)) (k : string) (v : nat)
  : list (string * nat) :=
  match d with
  | [] => [(k, v)]
  | (k', v') :: d' =>
      if String.eqb k' k then (k, v) :: d' else (k', v') :: odict_set d' k v
  end.

Section SampleDelta.

(** The table [DIM_TO_NAME] of [funsor.pyro.convert], read at a negative
    dimension; it is not among the sources. *)
Variable DIM_TO_NAME : Z -> Outcome string.

(** The loop [for dim in range(-len(shape), -len(self.batch_shape))]; an
    entry of [sample_inputs] holds the size [n] of its domain [bint(n)]. *)
Fixpoint sample_inputs_loop (shape : list nat) (dims : list Z)
    (sample_inputs : list (string * nat)) : Outcome (list (string * nat)) :=
  match dims with
  | [] => Return sample_inputs
  | dim :: dims' =>
      size ← py_getitem shape dim;
      if Nat.ltb 1 size
      then name ← DIM_TO_NAME dim;
           sample_inputs_loop shape dims' (odict_set sample_inputs name size)
      else sample_inputs_loop shape dims' sample_inputs
  end.

(** The first half of [_sample_delta]: [sample_inputs] as it is passed to
    [funsor_dist.sample], [None] when [sample_shape] is empty. *)
Definition sample_inputs_of (self : FunsorDistribution) (sample_shape : list nat)
  : Outcome (option (list (string * nat))) :=
  match sample_shape with
  | [] => Return None
  | _ =>
      let shape := sample_shape ++ batch_shape self in
      r ← sample_inputs_loop shape
            (range2 (- Z.of_nat (length shape)) (- Z.of_nat (length (batch_shape self))))
            [];
      Return (Some r)
  end.

End SampleDelta.

(** The terms [funsor_dist.sample] can give back, as far as
    [_sample_delta] tells them apart. *)
#[warnings="-register-all"]
Inductive FTerm : Type :=
  | TDelta (id : nat)
  | TContraction (terms : list FTerm)
  | TOther (id : nat).

(** [isinstance(t, Delta)] *)
Definition is_Delta (t : FTerm) : bool :=
  match t with TDelta _ => true | _ => false end.

(** The second half of [_sample_delta], from the term that
    [funsor_dist.sample] has returned. *)
Definition sample_delta_of (delta : FTerm) : Outcome FTerm :=
  delta1 ← match delta with
           | TContraction terms =>
               if Nat.eqb (length (List.filter is_Delta terms)) 1
               then py_getitem terms 0
               else Raise (AssertionError "")
           | _ => Return delta
           end;
  if is_Delta delta1 then Return delta1 else Raise (AssertionError "").

(** The entries the loop is to make for the sample dimensions listed with
    their positions: one per size above 1. *)
Definition named_sizes (name : Z -> string) (len : nat) (l : list (nat * nat))
  : list (string * nat) :=
  map (fun p => (name (Z.of_nat (fst p) - Z.of_nat len), snd p))
    (List.filter (fun p => Nat.ltb 1 (snd p)) l).

(** A table of names, one per dimension, for the samples below. *)
Definition pyro_dim_name (dim : Z) : string := "_pyro_dim_" +:+ pretty dim.

(** The built-ins together with the two names that [mode] misses. *)
Definition patched_builtins : gset string :=
  python_builtins ∪ {[ "AdjointTape"%string; "ops"%string ]}.

Definition batched_distribution : FunsorDistribution :=
  {| funsor_dist := {[ "value"%string ]}; batch_shape := [4%nat]; event_shape := [] |}.

Definition sample_distribution : FunsorDistribution :=
  {| funsor_dist := {[ "value"%string ]}; batch_shape := []; event_shape := [] |}.

End distribution.

(** * Properties *)

(** ** The handler stack *)

Section StackProps.

Import handlers.
Context {S : Type}.
Implicit Types (st hs : list (Handler S)) (msg m : Msg S) (w : World S) (s : S).

Lemma enumerate_from_cons {A} (i0 : nat) (x : A) (l : list A) :
  enumerate_from i0 (x :: l) = (i0, x) :: enumerate_from (Datatypes.S i0) l.
Proof. reflexivity. Qed.

(** The first loop processes a non-empty prefix of its iterator: it goes
    on while no processed handler has left the message marked, and ends
    at the first one that has, or at the end of the iterator. *)
Lemma process_loop_spec hs :
  hs ≠ [] ->
  forall (i0 : nat) (ptr : option nat) msg w,
  exists n : nat,
    (1 <= n <= length hs)%nat /\
    process_loop (enumerate_from i0 hs) ptr msg w
    = (Return (Some (i0 + n - 1)%nat, fst (run_process (take n hs) (msg, mem w))),
       {| HANDLER_STACK := HANDLER_STACK w;
          mem := snd (run_process (take n hs) (msg, mem w));
          trace := trace w ++ map EvProcess (map hid (take n hs)) |}) /\
    (forall k : nat, (1 <= k < n)%nat ->
       get_stop (fst (run_process (take k hs) (msg, mem w))) = false) /\
    ((n < length hs)%nat ->
       get_stop (fst (run_process (take n hs) (msg, mem w))) = true).
Proof.
  induction hs as [|h hs IH]; [congruence|]. intros _ i0 ptr msg w.
  rewrite enumerate_from_cons. cbn [process_loop]. unfold bind, call_process.
  destruct (process h msg (mem w)) as [m1 s1] eqn:Hp.
  destruct (get_stop m1) eqn:Hstop.
  - exists 1%nat. cbn [take firstn length run_process fold_left fst snd map].
    rewrite Hp. cbn [fst snd]. replace (i0 + 1 - 1)%nat with i0 by lia.
    repeat split; try lia; auto.
  - destruct hs as [|h' hs'].
    + exists 1%nat. cbn [take firstn length run_process fold_left fst snd map
                         enumerate_from zip zip_with seq process_loop].
      rewrite Hp. cbn [fst snd]. replace (i0 + 1 - 1)%nat with i0 by lia.
      repeat split; try lia; auto.
    + destruct (IH ltac:(congruence) (Datatypes.S i0) (Some i0) m1
                  (set_mem s1 (emit (EvProcess (hid h)) w)))
        as (n & Hn & Heq & Hbefore & Hat).
      exists (Datatypes.S n). cbn [mem set_mem emit HANDLER_STACK trace] in *.
      assert (Hrun : forall k, run_process (take (Datatypes.S k) (h :: h' :: hs')) (msg, mem w)
                               = run_process (take k (h' :: hs')) (m1, s1)).
      { intros k. cbn [take firstn]. unfold run_process at 1. cbn [fold_left fst snd].
        rewrite Hp. reflexivity. }
      rewrite Hrun. split; [cbn [length] in *; lia|]. split.
      * rewrite Heq. replace (Datatypes.S i0 + n - 1)%nat with (i0 + Datatypes.S n - 1)%nat by lia.
        f_equal. f_equal. cbn [take firstn map]. rewrite <- app_assoc. reflexivity.
      * split.
        -- intros k Hk. destruct k as [|k]; [lia|]. rewrite Hrun.
           destruct k as [|k].
           ++ cbn [take firstn run_process fold_left fst]. exact Hstop.
           ++ apply Hbefore. lia.
        -- intros Hlt. apply Hat. cbn [length] in *. lia.
Qed.

Lemma postprocess_loop_spec hs : forall msg w,
  postprocess_loop hs msg w
  = (Return (fst (run_postprocess hs (msg, mem w))),
     {| HANDLER_STACK := HANDLER_STACK w;
        mem := snd (run_postprocess hs (msg, mem w));
        trace := trace w ++ map EvPostprocess (map hid hs) |}).
Proof.
  induction hs as [|h hs IH]; intros msg w.
  - cbn. rewrite app_nil_r. destruct w; reflexivity.
  - cbn [postprocess_loop]. unfold bind, call_postprocess.
    destruct (postprocess h msg (mem w)) as [m1 s1] eqn:Hp.
    rewrite IH. cbn [mem set_mem emit HANDLER_STACK trace].
    unfold run_postprocess at 3 4. cbn [fold_left fst snd]. rewrite Hp.
    cbn [map]. rewrite <- app_assoc. reflexivity.
Qed.

Lemma fill_value_spec msg w :
  fill_value msg w
  = (Return (fst (run_fill (msg, mem w))),
     {| HANDLER_STACK := HANDLER_STACK w;
        mem := snd (run_fill (msg, mem w));
        trace := trace w ++ call_events msg |}).
Proof.
  unfold fill_value, run_fill, call_events. cbn [fst snd].
  destruct (is_None (value msg)).
  - unfold bind, call_fn, ret.
    destruct (call (fn msg) (args msg) (kwargs msg) (mem w)) as [v s1]. reflexivity.
  - unfold ret. rewrite app_nil_r. destruct w; reflexivity.
Qed.

(** The slice [HANDLER_STACK[-pointer-1:]] holds the last [pointer + 1]
    handlers of the stack. *)
Lemma slice_from_top {A} (l : list A) (n : nat) :
  (1 <= n <= length l)%nat ->
  slice_from (- Z.of_nat (n - 1) - 1) l = drop (length l - n) l.
Proof.
  intros Hn. unfold slice_from.
  destruct (Z.ltb_spec (- Z.of_nat (n - 1) - 1) 0); [|lia].
  f_equal. lia.
Qed.

Lemma drop_top_rev {A} (l : list A) (n : nat) :
  (n <= length l)%nat -> drop (length l - n) l = rev (take n (rev l)).
Proof.
  intros Hn. rewrite firstn_rev, rev_involutive. reflexivity.
Qed.

(** The whole of [apply_stack] on a non-empty stack. *)
Lemma apply_stack_spec st msg s tr :
  st ≠ [] ->
  exists n : nat,
    (1 <= n <= length st)%nat /\
    (forall k : nat, (1 <= k < n)%nat ->
       get_stop (fst (run_process (take k (rev st)) (msg, s))) = false) /\
    ((n < length st)%nat ->
       get_stop (fst (run_process (take n (rev st)) (msg, s))) = true) /\
    let p := run_process (take n (rev st)) (msg, s) in
    let q := run_postprocess (drop (length st - n) st) (run_fill p) in
    apply_stack msg {| HANDLER_STACK := st; mem := s; trace := tr |}
    = (Return (fst q),
       {| HANDLER_STACK := st; mem := snd q;
          trace := tr ++ map EvProcess (map hid (take n (rev st)))
                      ++ call_events (fst p)
                      ++ map EvPostprocess (map hid (drop (length st - n) st)) |}).
Proof.
  intros Hne.
  assert (Hrev : rev st ≠ []).
  { intros E. apply Hne. rewrite <- (rev_involutive st), E. reflexivity. }
  destruct (process_loop_spec (rev st) Hrev 0 None msg
              {| HANDLER_STACK := st; mem := s; trace := tr |})
    as (n & Hn & Heq & Hbefore & Hat).
  rewrite length_rev in Hn, Hat. cbn [mem HANDLER_STACK trace] in *.
  exists n. repeat split; try lia; auto.
  cbv zeta. unfold apply_stack, bind at 1, get_stack. cbn [HANDLER_STACK].
  unfold bind at 1. unfold enumerate. rewrite Heq.
  unfold bind at 1. rewrite fill_value_spec. cbn [mem HANDLER_STACK trace].
  cbn [Nat.add]. unfold bind at 1, get_stack. cbn [HANDLER_STACK].
  rewrite slice_from_top by lia. rewrite postprocess_loop_spec.
  cbn [mem HANDLER_STACK trace]. rewrite <- !app_assoc.
  rewrite <- !surjective_pairing. reflexivity.
Qed.

(** Entering handlers and leaving them in the reverse order. *)
Lemma enter_all_spec hs : forall st s tr,
  enter_all hs {| HANDLER_STACK := st; mem := s; trace := tr |}
  = (Return tt, {| HANDLER_STACK := st ++ hs; mem := s; trace := tr |}).
Proof.
  induction hs as [|h hs IH]; intros st s tr.
  - cbn. rewrite app_nil_r. reflexivity.
  - cbn [enter_all]. unfold bind, __enter__, set_stack. cbn [HANDLER_STACK mem trace].
    rewrite IH, <- app_assoc. reflexivity.
Qed.

Lemma exit_all_rev_spec hs : forall st s tr,
  exit_all (rev hs) {| HANDLER_STACK := st ++ hs; mem := s; trace := tr |}
  = (Return tt, {| HANDLER_STACK := st; mem := s; trace := tr |}).
Proof.
  induction hs as [|h hs IH] using rev_ind; intros st s tr.
  - cbn. rewrite app_nil_r. reflexivity.
  - rewrite rev_app_distr. cbn [rev app exit_all]. unfold bind, __exit__.
    cbn [HANDLER_STACK]. rewrite app_assoc, last_snoc.
    unfold is_. rewrite Nat.eqb_refl. unfold set_stack. cbn [HANDLER_STACK mem trace].
    rewrite removelast_last. apply IH.
Qed.

Lemma enter_exit_nested hs st s tr :
  bind (enter_all hs) (fun _ => exit_all (rev hs))
    {| HANDLER_STACK := st; mem := s; trace := tr |}
  = (Return tt, {| HANDLER_STACK := st; mem := s; trace := tr |}).
Proof. unfold bind. rewrite enter_all_spec. apply exit_all_rev_spec. Qed.

(** Handlers of the base class leave the message and the state alone. *)
Lemma run_process_base (ids : list nat) (ms : Msg S * S) :
  run_process (map base_Handler ids) ms = ms.
Proof.
  revert ms. induction ids as [|i ids IH]; intros ms; [reflexivity|].
  unfold run_process. cbn [map fold_left base_Handler process].
  rewrite <- surjective_pairing. apply IH.
Qed.

Lemma run_postprocess_base (ids : list nat) (ms : Msg S * S) :
  run_postprocess (map base_Handler ids) ms = ms.
Proof.
  revert ms. induction ids as [|i ids IH]; intros ms; [reflexivity|].
  unfold run_postprocess. cbn [map fold_left base_Handler postprocess].
  rewrite <- surjective_pairing. apply IH.
Qed.

Lemma map_hid_base (ids : list nat) : map hid (map (@base_Handler S) ids) = ids.
Proof. rewrite map_map. cbn. apply map_id. Qed.

(** Under base-class handlers an unmarked message goes down the whole
    stack, the function fills a missing value, and the message comes back
    up the whole stack. *)
Lemma apply_stack_base (ids : list nat) msg s tr :
  ids ≠ [] -> get_stop msg = false ->
  apply_stack msg {| HANDLER_STACK := map base_Handler ids; mem := s; trace := tr |}
  = (Return (fst (run_fill (msg, s))),
     {| HANDLER_STACK := map base_Handler ids; mem := snd (run_fill (msg, s));
        trace := tr ++ map EvProcess (rev ids) ++ call_events msg
                    ++ map EvPostprocess ids |}).
Proof.
  intros Hids Hstop.
  assert (Hne : map (@base_Handler S) ids ≠ []) by (destruct ids; [congruence|discriminate]).
  destruct (apply_stack_spec _ msg s tr Hne) as (n & Hn & _ & Hat & Heq).
  cbv zeta in Heq. rewrite <- map_rev, firstn_map in Hat, Heq.
  rewrite run_process_base in Hat, Heq. cbn [fst] in Hat, Heq.
  assert (n = length (map (@base_Handler S) ids)) as Hlen.
  { destruct (Nat.lt_ge_cases n (length (map (@base_Handler S) ids))) as [Hlt|Hge]; [|lia].
    apply Hat in Hlt. congruence. }
  rewrite Heq. clear Heq Hat Hn. subst n. rewrite Nat.sub_diag, !skipn_O.
  rewrite run_postprocess_base, !map_hid_base.
  rewrite length_map, <- length_rev, firstn_all. reflexivity.
Qed.

End StackProps.

Section StackClaims.

Import handlers.
Context {S : Type}.
Implicit Types (st hs : list (Handler S)) (msg m : Msg S) (w : World S) (s : S).

(** C1. On a non-empty stack, [apply_stack] runs [process] on the first
    [n] handlers counted from the most recently pushed one, where [n] is
    reached at the first handler that leaves the message marked ["stop"]
    (or at the bottom of the stack); handlers pushed before it get no
    [process]. Then, after the possible call of the wrapped function, it
    runs [postprocess] on those same [n] handlers in push order, the
    oldest of them first. The message returned and the program state are
    what these hooks and the function make of them, in that order, and the
    events are theirs and no others. *)
Theorem apply_stack_order st msg s tr :
  st ≠ [] ->
  exists n : nat,
    let processed := take n (rev st) in
    let after k := fst (run_process (take k (rev st)) (msg, s)) in
    (1 <= n <= length st)%nat /\
    (forall k : nat, (1 <= k < n)%nat -> get_stop (after k) = false) /\
    ((n < length st)%nat -> get_stop (after n) = true) /\
    rev processed = drop (length st - n) st /\
    exists m' w',
      apply_stack msg {| HANDLER_STACK := st; mem := s; trace := tr |} = (Return m', w') /\
      (m', mem w')
      = run_postprocess (rev processed) (run_fill (run_process processed (msg, s))) /\
      HANDLER_STACK w' = st /\
      trace w' = tr ++ map EvProcess (map hid processed)
                    ++ call_events (after n)
                    ++ map EvPostprocess (map hid (rev processed)).
Proof.
  intros Hne. destruct (apply_stack_spec st msg s tr Hne) as (n & Hn & Hb & Hat & Heq).
  exists n. cbv zeta in *. repeat split; try lia; auto.
  - symmetry. apply drop_top_rev. lia.
  - eexists _, _. split; [exact Heq|]. cbn [trace mem HANDLER_STACK].
    rewrite <- (drop_top_rev st n) by lia. split; [|split; reflexivity].
    symmetry. apply surjective_pairing.
Qed.

Lemma filter_is_call_process (ids : list nat) :
  List.filter is_call (map EvProcess ids) = [].
Proof. induction ids; cbn; auto. Qed.

Lemma filter_is_call_postprocess (ids : list nat) :
  List.filter is_call (map EvPostprocess ids) = [].
Proof. induction ids; cbn; auto. Qed.

Lemma filter_is_call_events msg :
  List.filter is_call (call_events msg) = call_events msg.
Proof. unfold call_events. destruct (is_None (value msg)); reflexivity. Qed.

(** C2. Whatever the stack, the wrapped function is called exactly when
    the message that leaves the process pass has value [None]: it is then
    applied once, to that message's [args] and [kwargs] in the state the
    process pass has left, and its result is the value of the message
    that goes on to the postprocess hooks; when a handler has supplied a
    value the function is not called and the message goes on as it is. *)
Theorem apply_stack_calls_fn_iff_no_value st msg s tr :
  exists (pointer : option nat) (m1 : Msg S) (w1 : World S) (new : list Event),
    process_loop (enumerate (rev st)) None msg
      {| HANDLER_STACK := st; mem := s; trace := tr |} = (Return (pointer, m1), w1) /\
    trace (snd (apply_stack msg {| HANDLER_STACK := st; mem := s; trace := tr |}))
    = tr ++ new /\
    List.filter is_call new
    = (if is_None (value m1) then [EvCall (fid (fn m1)) (args m1) (kwargs m1)] else []) /\
    let filled :=
      if is_None (value m1)
      then (set_value (fst (call (fn m1) (args m1) (kwargs m1) (mem w1))) m1,
            snd (call (fn m1) (args m1) (kwargs m1) (mem w1)))
      else (m1, mem w1) in
    let hs :=
      match pointer with
      | Some p => slice_from (- Z.of_nat p - 1) st
      | None => []
      end in
    mem (snd (apply_stack msg {| HANDLER_STACK := st; mem := s; trace := tr |}))
    = snd (run_postprocess hs filled) /\
    fst (apply_stack msg {| HANDLER_STACK := st; mem := s; trace := tr |})
    = match pointer with
      | Some _ => Return (fst (run_postprocess hs filled))
      | None => Raise (UnboundLocalError "pointer")
      end.
Proof.
  assert (Hfill : forall (m1 : Msg S) (s1 : S),
    run_fill (m1, s1)
    = if is_None (value m1)
      then (set_value (fst (call (fn m1) (args m1) (kwargs m1) s1)) m1,
            snd (call (fn m1) (args m1) (kwargs m1) s1))
      else (m1, s1)).
  { intros m1 s1. unfold run_fill. cbn [fst snd]. destruct (is_None (value m1)); reflexivity. }
  destruct st as [|h0 st0] eqn:Est.
  - exists None, msg, {| HANDLER_STACK := []; mem := s; trace := tr |}, (call_events msg).
    split; [reflexivity|].
    assert (Hrun : apply_stack msg {| HANDLER_STACK := []; mem := s; trace := tr |}
                   = (Raise (UnboundLocalError "pointer"),
                      {| HANDLER_STACK := []; mem := snd (run_fill (msg, s));
                         trace := tr ++ call_events msg |})).
    { unfold apply_stack, bind at 1, get_stack. cbn [HANDLER_STACK rev enumerate
        enumerate_from zip zip_with length seq process_loop].
      unfold bind at 1, ret at 1. unfold bind at 1. rewrite fill_value_spec. reflexivity. }
    rewrite Hrun. cbn [fst snd trace mem]. split; [reflexivity|].
    split; [apply filter_is_call_events|]. cbv zeta. rewrite <- Hfill.
    split; reflexivity.
  - rewrite <- Est. assert (Hne : st ≠ []) by (rewrite Est; discriminate).
    assert (Hrev : rev st ≠ []).
    { intros E. apply Hne. rewrite <- (rev_involutive st), E. reflexivity. }
    destruct (process_loop_spec (rev st) Hrev 0 None msg
                {| HANDLER_STACK := st; mem := s; trace := tr |})
      as (n & Hn & Heq & Hbefore & Hat).
    rewrite length_rev in Hn. cbn [mem] in Heq.
    eexists _, _, _, _. split; [exact Heq|].
    assert (Hrun : apply_stack msg {| HANDLER_STACK := st; mem := s; trace := tr |}
      = postprocess_loop (slice_from (- Z.of_nat (0 + n - 1) - 1) st)
          (fst (run_fill (run_process (take n (rev st)) (msg, s))))
          {| HANDLER_STACK := st;
             mem := snd (run_fill (run_process (take n (rev st)) (msg, s)));
             trace := (tr ++ map EvProcess (map hid (take n (rev st))))
                      ++ call_events (fst (run_process (take n (rev st)) (msg, s))) |}).
    { unfold apply_stack, bind at 1, get_stack. cbn [HANDLER_STACK].
      unfold bind at 1. unfold enumerate. rewrite Heq.
      unfold bind at 1. rewrite fill_value_spec. cbn [mem HANDLER_STACK trace].
      unfold bind at 1. cbn [HANDLER_STACK].
      rewrite <- surjective_pairing. reflexivity. }
    rewrite Hrun, postprocess_loop_spec. cbn [fst snd trace mem HANDLER_STACK].
    rewrite <- !app_assoc. split; [reflexivity|]. split.
    + rewrite !List.filter_app, filter_is_call_process, filter_is_call_postprocess,
        filter_is_call_events, app_nil_r.
      reflexivity.
    + cbv zeta. rewrite <- Hfill, <- !surjective_pairing. split; reflexivity.
Qed.

(** C3 (as amended). On a non-empty stack [apply_stack] returns the
    message itself, as it stands after every [postprocess] hook of the
    processed handlers has run (the handlers from the top of the stack
    down to the first one that marks the message, or to the bottom); it
    is [effectful] that returns the value field of that message. *)
Theorem apply_stack_returns_message st msg s tr :
  st ≠ [] ->
  let w := {| HANDLER_STACK := st; mem := s; trace := tr |} in
  exists (n : nat) (m' : Msg S) (w' : World S),
    (1 <= n <= length st)%nat /\
    (forall k : nat, (1 <= k < n)%nat ->
       get_stop (fst (run_process (take k (rev st)) (msg, s))) = false) /\
    ((n < length st)%nat ->
       get_stop (fst (run_process (take n (rev st)) (msg, s))) = true) /\
    apply_stack msg w = (Return m', w') /\
    returned_object (fst (apply_stack msg w)) = Return (ObjMsg m') /\
    (m', mem w')
    = run_postprocess (drop (length st - n) st)
        (run_fill (run_process (take n (rev st)) (msg, s))) /\
    forall ty f a k,
      exists mf wf,
        apply_stack (initial_msg ty f a k) w = (Return mf, wf) /\
        effectful ty f a k w = (Return (value mf), wf).
Proof.
  intros Hne w. destruct (apply_stack_spec st msg s tr Hne) as (n & Hn & Hb & Hat & Heq).
  cbv zeta in Heq. eexists n, _, _. subst w. rewrite Heq. cbn [fst returned_object mem].
  split; [exact Hn|]. split; [exact Hb|]. split; [exact Hat|].
  repeat split.
  - symmetry. apply surjective_pairing.
  - intros ty f a k.
    destruct (apply_stack_spec st (initial_msg ty f a k) s tr Hne) as (n' & _ & _ & _ & Heq').
    cbv zeta in Heq'. eexists _, _. split; [exact Heq'|].
    unfold effectful, bind at 1, get_stack. cbn [HANDLER_STACK].
    destruct st as [|h0 st0]; [congruence|].
    unfold bind at 1. rewrite Heq'. reflexivity.
Qed.

(** C6. Entering a handler pushes it on [HANDLER_STACK]; leaving it while
    it is the top pops it; leaving it while another handler is the top
    raises the assertion and pops nothing; entering handlers one after the
    other and leaving them in the reverse order never raises and gives
    the stack back as it was. *)
Theorem handler_scope_discipline (self top : Handler S) st s tr hs :
  is_ top self = false ->
  __enter__ self {| HANDLER_STACK := st; mem := s; trace := tr |}
  = (Return tt, {| HANDLER_STACK := st ++ [self]; mem := s; trace := tr |}) /\
  __exit__ self {| HANDLER_STACK := st ++ [self]; mem := s; trace := tr |}
  = (Return tt, {| HANDLER_STACK := st; mem := s; trace := tr |}) /\
  __exit__ self {| HANDLER_STACK := st ++ [top]; mem := s; trace := tr |}
  = (Raise (AssertionError ""), {| HANDLER_STACK := st ++ [top]; mem := s; trace := tr |}) /\
  bind (enter_all hs) (fun _ => exit_all (rev hs))
    {| HANDLER_STACK := st; mem := s; trace := tr |}
  = (Return tt, {| HANDLER_STACK := st; mem := s; trace := tr |}).
Proof.
  intros Hnot. split; [reflexivity|]. split; [|split].
  - unfold __exit__. cbn [HANDLER_STACK]. rewrite last_snoc.
    unfold is_. rewrite Nat.eqb_refl. unfold set_stack. cbn.
    rewrite removelast_last. reflexivity.
  - unfold __exit__. cbn [HANDLER_STACK]. rewrite last_snoc, Hnot. reflexivity.
  - apply enter_exit_nested.
Qed.

(** C9. On an empty stack [apply_stack] never returns: it raises the
    unbound-local error for [pointer], after the wrapped function of a
    message whose value is [None] has been called, so that the call and
    its effect on the program state are there although no result is.
    [effectful] does not go through [apply_stack] on an empty stack: it
    calls the function and returns its result. *)
Theorem apply_stack_empty_stack msg s tr :
  let w := {| HANDLER_STACK := []; mem := s; trace := tr |} in
  apply_stack msg w
  = (Raise (UnboundLocalError "pointer"),
     {| HANDLER_STACK := []; mem := snd (run_fill (msg, s));
        trace := tr ++ call_events msg |}) /\
  is_name_error (UnboundLocalError "pointer") = true /\
  apply_stack (set_value VNone msg) w
  = (Raise (UnboundLocalError "pointer"),
     {| HANDLER_STACK := [];
        mem := snd (call (fn msg) (args msg) (kwargs msg) s);
        trace := tr ++ [EvCall (fid (fn msg)) (args msg) (kwargs msg)] |}) /\
  forall ty f a k,
    effectful ty f a k w
    = (Return (fst (call f a k s)),
       {| HANDLER_STACK := []; mem := snd (call f a k s);
          trace := tr ++ [EvCall (fid f) a k] |}).
Proof.
  intros w. assert (Hgen : forall m0, apply_stack m0 w
    = (Raise (UnboundLocalError "pointer"),
       {| HANDLER_STACK := []; mem := snd (run_fill (m0, s));
          trace := tr ++ call_events m0 |})).
  { intros m0. unfold apply_stack, bind at 1, get_stack. subst w.
    cbn [HANDLER_STACK rev enumerate enumerate_from zip zip_with length seq process_loop].
    unfold bind at 1, ret at 1. unfold bind at 1. rewrite fill_value_spec. reflexivity. }
  split; [apply Hgen|]. split; [reflexivity|]. split.
  - rewrite Hgen. reflexivity.
  - intros ty f a k. subst w. unfold effectful, bind, get_stack, call_fn.
    cbn [HANDLER_STACK mem]. destruct (call f a k s). reflexivity.
Qed.

(** C10. When a call passes a ["name"] keyword: on an empty stack the
    wrapped function receives the keyword arguments as they are, ["name"]
    included; on a non-empty stack the message sent down the stack holds
    the name in its label and the keyword arguments without it, and under
    handlers that leave the message alone the function is called on those
    arguments, which differ from the caller's. *)
Theorem effectful_name_kwarg ty (f : Callable S) a (k : gmap string pyval) v s tr
    (ids : list nat) :
  k !! "name"%string = Some v ->
  ids ≠ [] ->
  let k' := delete "name"%string k in
  effectful ty f a k {| HANDLER_STACK := []; mem := s; trace := tr |}
  = (Return (fst (call f a k s)),
     {| HANDLER_STACK := []; mem := snd (call f a k s);
        trace := tr ++ [EvCall (fid f) a k] |}) /\
  initial_msg ty f a k
  = {| label := {| term_type := ty; name := v |}; fn := f; args := a;
       kwargs := k'; value := VNone; stop := None |} /\
  (forall st, st ≠ [] ->
     effectful ty f a k {| HANDLER_STACK := st; mem := s; trace := tr |}
     = bind (apply_stack (initial_msg ty f a k)) (fun m => ret (value m))
         {| HANDLER_STACK := st; mem := s; trace := tr |}) /\
  effectful ty f a k {| HANDLER_STACK := map base_Handler ids; mem := s; trace := tr |}
  = (Return (fst (call f a k' s)),
     {| HANDLER_STACK := map base_Handler ids; mem := snd (call f a k' s);
        trace := tr ++ map EvProcess (rev ids) ++ [EvCall (fid f) a k']
                    ++ map EvPostprocess ids |}) /\
  k' !! "name"%string = None /\ k' ≠ k.
Proof.
  intros Hk Hids k'.
  assert (Hinit : initial_msg ty f a k
    = {| label := {| term_type := ty; name := v |}; fn := f; args := a;
         kwargs := k'; value := VNone; stop := None |}).
  { unfold initial_msg, pop_name. rewrite Hk. reflexivity. }
  split.
  { unfold effectful, bind, get_stack, call_fn. cbn [HANDLER_STACK mem].
    destruct (call f a k s). reflexivity. }
  assert (Hgen : forall st, st ≠ [] ->
     effectful ty f a k {| HANDLER_STACK := st; mem := s; trace := tr |}
     = bind (apply_stack (initial_msg ty f a k)) (fun m => ret (value m))
         {| HANDLER_STACK := st; mem := s; trace := tr |}).
  { intros st Hst. unfold effectful, bind at 1, get_stack. cbn [HANDLER_STACK].
    destruct st; [congruence|reflexivity]. }
  split; [exact Hinit|]. split; [exact Hgen|]. split.
  { assert (Hne : map (@base_Handler S) ids ≠ []) by (destruct ids; [congruence|discriminate]).
    rewrite (Hgen _ Hne), Hinit. unfold bind at 1.
    rewrite (apply_stack_base ids _ s tr Hids) by reflexivity.
    unfold ret, run_fill, call_events. cbn [fst snd value is_None fn args kwargs set_value].
    reflexivity. }
  split; [apply lookup_delete_eq|].
  intros E. assert (Hnone : k' !! "name"%string = None) by apply lookup_delete_eq.
  rewrite E, Hk in Hnone. discriminate.
Qed.

End StackClaims.

(** ** The operation registry *)

Section RegistryProps.

Import handlers.
Context {K : Type} `{Countable K} {F : Type}.
Implicit Types (cls : OpRegistry K F) (tys : list K) (k : K) (fn : F).

Lemma register_cons post k tys fn cls :
  register post (k :: tys) fn cls
  = if decide (k ∈ dom (mapping post cls))
    then (Raise (AssertionError "cannot override"), cls)
    else register post tys fn (put post k fn cls).
Proof. destruct post; reflexivity. Qed.

Lemma mapping_put post k fn cls :
  mapping post (put post k fn cls) = <[k := fn]> (mapping post cls).
Proof. destruct post; reflexivity. Qed.

Lemma mapping_put_other post k fn cls :
  mapping (negb post) (put post k fn cls) = mapping (negb post) cls.
Proof. destruct post; reflexivity. Qed.

(** The only exception a registration raises is the assertion. *)
Lemma register_raise_is_assertion post tys : forall fn cls e,
  fst (register post tys fn cls) = Raise e -> e = AssertionError "cannot override".
Proof.
  induction tys as [|k tys IH]; intros fn cls e; [discriminate|].
  rewrite register_cons. case_decide; [cbn; congruence|apply IH].
Qed.

(** A registration raises exactly when one of its kinds is already in the
    mapping it writes to, or comes a second time in the same call. *)
Lemma register_raises_iff post tys : forall fn cls,
  (exists e, fst (register post tys fn cls) = Raise e) <->
  (exists (i : nat) k, tys !! i = Some k /\
     (k ∈ dom (mapping post cls) \/ k ∈ take i tys)).
Proof.
  induction tys as [|k0 tys IH]; intros fn cls.
  - split; [intros [e He]; discriminate | intros (i & k & Hi & _); discriminate].
  - rewrite register_cons. case_decide as Hin.
    + split; [|eauto]. intros _. exists 0%nat, k0. split; [reflexivity|]. left. exact Hin.
    + rewrite IH, mapping_put, dom_insert_L. split.
      * intros (i & k & Hi & Hk). exists (Datatypes.S i), k. split; [exact Hi|].
        cbn [take firstn]. rewrite elem_of_cons.
        rewrite elem_of_union, elem_of_singleton in Hk. tauto.
      * intros (i & k & Hi & Hk). destruct i as [|i].
        -- cbn in Hi. injection Hi as <-. destruct Hk as [Hk|Hk]; [contradiction|].
           cbn in Hk. apply elem_of_nil in Hk. contradiction.
        -- exists i, k. split; [exact Hi|]. cbn [take firstn] in Hk.
           rewrite elem_of_cons in Hk. rewrite elem_of_union, elem_of_singleton. tauto.
Qed.

(** Registering one fresh kind. *)
Lemma register_fresh post k fn cls :
  k ∉ dom (mapping post cls) ->
  register post [k] fn cls = (Return fn, put post k fn cls).
Proof. intros Hk. rewrite register_cons. case_decide; [contradiction|reflexivity]. Qed.

(** C7. A registration raises, and then it raises the assertion, exactly
    when some kind is registered a second time in the mapping selected by
    [post]. Registering a kind that the mapping does not hold succeeds,
    installs the function for it and leaves the other mapping alone;
    registering it again in the same mapping raises the assertion, while
    registering it in the other mapping goes through. *)
Theorem register_twice_raises (post : bool) k tys fn (g : F) cls :
  k ∉ dom (mapping post cls) ->
  k ∉ dom (mapping (negb post) cls) ->
  ((exists e, fst (register post tys fn cls) = Raise e) <->
   (exists (i : nat) k', tys !! i = Some k' /\
      (k' ∈ dom (mapping post cls) \/ k' ∈ take i tys))) /\
  (forall e, fst (register post tys fn cls) = Raise e ->
     e = AssertionError "cannot override") /\
  (exists cls1,
     register post [k] fn cls = (Return fn, cls1) /\
     mapping post cls1 = <[k := fn]> (mapping post cls) /\
     mapping (negb post) cls1 = mapping (negb post) cls /\
     register post [k] g cls1 = (Raise (AssertionError "cannot override"), cls1) /\
     exists cls2,
       register (negb post) [k] g cls1 = (Return g, cls2) /\
       mapping post cls2 !! k = Some fn /\
       mapping (negb post) cls2 !! k = Some g).
Proof.
  intros Hk Hother. split; [apply register_raises_iff|].
  split; [apply register_raise_is_assertion|].
  exists (put post k fn cls). split; [apply register_fresh; exact Hk|].
  split; [apply mapping_put|]. split; [apply mapping_put_other|]. split.
  - rewrite register_cons. case_decide as Hin; [reflexivity|].
    exfalso. apply Hin. rewrite mapping_put, dom_insert_L. set_solver.
  - exists (put (negb post) k g (put post k fn cls)). split.
    + apply register_fresh. rewrite mapping_put_other. exact Hother.
    + split.
      * destruct post; cbn; apply lookup_insert_eq.
      * rewrite mapping_put. apply lookup_insert_eq.
Qed.

End RegistryProps.

(** ** The properties on the sample objects *)

Section Samples.

Import handlers.

(** On the sample stack the handler pushed last and the marking handler
    below it are processed, the one pushed first is not. *)
Example sample_run :
  trace (snd (apply_stack sample_msg sample_world))
  = [EvProcess 3; EvProcess 2; EvCall 0 [VInt 1] ∅; EvPostprocess 2; EvPostprocess 3].
Proof. reflexivity. Qed.

(** Leaving a handler while the stack is empty fails on the subscript
    [HANDLER_STACK[-1]], before the assertion is evaluated. *)
Example exit_on_empty_stack :
  __exit__ (base_Handler 1) {| HANDLER_STACK := []; mem := tt; trace := [] |}
  = (Raise IndexError, {| HANDLER_STACK := []; mem := tt; trace := [] |}).
Proof. reflexivity. Qed.

(** A second registration of a kind in one call, and a registration of a
    kind the mapping already holds, both raise. *)
Example sample_register_twice :
  fst (register false ["mul"; "mul"]%string 2%nat sample_registry)
  = Raise (AssertionError "cannot override") /\
  fst (register false ["add"]%string 2%nat sample_registry)
  = Raise (AssertionError "cannot override") /\
  fst (register true ["add"]%string 2%nat sample_registry) = Return 2%nat.
Proof. repeat split; vm_compute; reflexivity. Qed.

Lemma apply_stack_order_witness :
  sample_stack ≠ [] /\
  exists n : nat,
    let processed := take n (rev sample_stack) in
    let after k := fst (run_process (take k (rev sample_stack)) (sample_msg, tt)) in
    (1 <= n <= length sample_stack)%nat /\
    (forall k : nat, (1 <= k < n)%nat -> get_stop (after k) = false) /\
    ((n < length sample_stack)%nat -> get_stop (after n) = true) /\
    rev processed = drop (length sample_stack - n) sample_stack /\
    exists m' w',
      apply_stack sample_msg {| HANDLER_STACK := sample_stack; mem := tt; trace := [] |}
      = (Return m', w') /\
      (m', mem w')
      = run_postprocess (rev processed)
          (run_fill (run_process processed (sample_msg, tt))) /\
      HANDLER_STACK w' = sample_stack /\
      trace w' = [] ++ map EvProcess (map hid processed)
                    ++ call_events (after n)
                    ++ map EvPostprocess (map hid (rev processed)).
Proof.
  split; [discriminate|].
  apply (apply_stack_order sample_stack sample_msg tt []). discriminate.
Defined.

(** C3 (counterexample). On the sample stack the wrapped function fills
    the value 7. What [apply_stack] returns is the message dictionary,
    with its label, function, arguments and ["stop"] mark beside the
    value, and not the value 7, which is what [effectful] returns. *)
Lemma apply_stack_result_is_not_the_value :
  exists m,
    fst (apply_stack sample_msg sample_world) = Return m /\
    value m = VInt 7 /\
    m = {| label := {| term_type := "sample"; name := VNone |}; fn := seven;
           args := [VInt 1]; kwargs := ∅; value := VInt 7;
           stop := Some (VBool true) |} /\
    returned_object (fst (apply_stack sample_msg sample_world)) = Return (ObjMsg m) /\
    returned_object (fst (apply_stack sample_msg sample_world)) <> Return (ObjVal (value m)) /\
    fst (effectful "sample" seven [VInt 1] ∅ sample_world) = Return (VInt 7).
Proof.
  eexists. split; [reflexivity|]. split; [reflexivity|]. split; [reflexivity|].
  split; [reflexivity|]. split; [cbn; discriminate|reflexivity].
Qed.

Lemma apply_stack_returns_message_witness :
  sample_stack ≠ [] /\
  exists (n : nat) (m' : Msg unit) (w' : World unit),
    (1 <= n <= length sample_stack)%nat /\
    (forall k : nat, (1 <= k < n)%nat ->
       get_stop (fst (run_process (take k (rev sample_stack)) (sample_msg, tt))) = false) /\
    ((n < length sample_stack)%nat ->
       get_stop (fst (run_process (take n (rev sample_stack)) (sample_msg, tt))) = true) /\
    apply_stack sample_msg sample_world = (Return m', w') /\
    returned_object (fst (apply_stack sample_msg sample_world)) = Return (ObjMsg m') /\
    (m', mem w')
    = run_postprocess (drop (length sample_stack - n) sample_stack)
        (run_fill (run_process (take n (rev sample_stack)) (sample_msg, tt))) /\
    forall ty f a k,
      exists mf wf,
        apply_stack (initial_msg ty f a k) sample_world = (Return mf, wf) /\
        effectful ty f a k sample_world = (Return (value mf), wf).
Proof.
  split; [discriminate|].
  apply (apply_stack_returns_message sample_stack sample_msg tt []). discriminate.
Defined.

Lemma handler_scope_discipline_witness :
  is_ (stopper 2) (@base_Handler unit 1) = false /\
  __enter__ (base_Handler 1) {| HANDLER_STACK := [supplier 0]; mem := tt; trace := [] |}
  = (Return tt, {| HANDLER_STACK := [supplier 0; base_Handler 1]; mem := tt; trace := [] |}) /\
  __exit__ (base_Handler 1)
    {| HANDLER_STACK := [supplier 0; base_Handler 1]; mem := tt; trace := [] |}
  = (Return tt, {| HANDLER_STACK := [supplier 0]; mem := tt; trace := [] |}) /\
  __exit__ (base_Handler 1)
    {| HANDLER_STACK := [supplier 0; stopper 2]; mem := tt; trace := [] |}
  = (Raise (AssertionError ""),
     {| HANDLER_STACK := [supplier 0; stopper 2]; mem := tt; trace := [] |}) /\
  bind (enter_all sample_stack) (fun _ => exit_all (rev sample_stack))
    {| HANDLER_STACK := [supplier 0]; mem := tt; trace := [] |}
  = (Return tt, {| HANDLER_STACK := [supplier 0]; mem := tt; trace := [] |}).
Proof.
  split; [reflexivity|].
  apply (handler_scope_discipline (base_Handler 1) (stopper 2) [supplier 0] tt []
           sample_stack).
  reflexivity.
Defined.

Lemma effectful_name_kwarg_witness :
  sample_kwargs !! "name"%string = Some (VStr "z") /\
  [1; 2]%nat ≠ [] /\
  let k' := delete "name"%string sample_kwargs in
  effectful "sample" seven [VInt 1] sample_kwargs
    {| HANDLER_STACK := []; mem := tt; trace := [] |}
  = (Return (fst (call seven [VInt 1] sample_kwargs tt)),
     {| HANDLER_STACK := []; mem := snd (call seven [VInt 1] sample_kwargs tt);
        trace := [] ++ [EvCall (fid seven) [VInt 1] sample_kwargs] |}) /\
  initial_msg "sample" seven [VInt 1] sample_kwargs
  = {| label := {| term_type := "sample"; name := VStr "z" |}; fn := seven;
       args := [VInt 1]; kwargs := k'; value := VNone; stop := None |} /\
  (forall st, st ≠ [] ->
     effectful "sample" seven [VInt 1] sample_kwargs
       {| HANDLER_STACK := st; mem := tt; trace := [] |}
     = bind (apply_stack (initial_msg "sample" seven [VInt 1] sample_kwargs))
         (fun m => ret (value m))
         {| HANDLER_STACK := st; mem := tt; trace := [] |}) /\
  effectful "sample" seven [VInt 1] sample_kwargs
    {| HANDLER_STACK := map base_Handler [1; 2]%nat; mem := tt; trace := [] |}
  = (Return (fst (call seven [VInt 1] k' tt)),
     {| HANDLER_STACK := map base_Handler [1; 2]%nat;
        mem := snd (call seven [VInt 1] k' tt);
        trace := [] ++ map EvProcess (rev [1; 2]%nat)
                    ++ [EvCall (fid seven) [VInt 1] k']
                    ++ map EvPostprocess [1; 2]%nat |}) /\
  k' !! "name"%string = None /\ k' ≠ sample_kwargs.
Proof.
  split; [reflexivity|]. split; [discriminate|].
  apply (effectful_name_kwarg "sample" seven [VInt 1] sample_kwargs (VStr "z") tt []
           [1; 2]%nat); [reflexivity|discriminate].
Defined.

Lemma register_twice_raises_witness :
  ("mul"%string ∉ dom (mapping false sample_registry)) /\
  ("mul"%string ∉ dom (mapping (negb false) sample_registry)) /\
  ((exists e, fst (register false ["mul"; "add"]%string 2%nat sample_registry) = Raise e) <->
   (exists (i : nat) k', ["mul"; "add"]%string !! i = Some k' /\
      (k' ∈ dom (mapping false sample_registry) \/ k' ∈ take i ["mul"; "add"]%string))) /\
  (forall e, fst (register false ["mul"; "add"]%string 2%nat sample_registry) = Raise e ->
     e = AssertionError "cannot override") /\
  (exists cls1,
     register false ["mul"%string] 2%nat sample_registry = (Return 2%nat, cls1) /\
     mapping false cls1 = <["mul"%string := 2%nat]> (mapping false sample_registry) /\
     mapping (negb false) cls1 = mapping (negb false) sample_registry /\
     register false ["mul"%string] 3%nat cls1
     = (Raise (AssertionError "cannot override"), cls1) /\
     exists cls2,
       register (negb false) ["mul"%string] 3%nat cls1 = (Return 3%nat, cls2) /\
       mapping false cls2 !! "mul"%string = Some 2%nat /\
       mapping (negb false) cls2 !! "mul"%string = Some 3%nat).
Proof.
  assert (H1 : "mul"%string ∉ dom (mapping false sample_registry)).
  { cbn. rewrite dom_singleton_L, elem_of_singleton. discriminate. }
  assert (H2 : "mul"%string ∉ dom (mapping (negb false) sample_registry)).
  { cbn. rewrite dom_empty_L. apply not_elem_of_empty. }
  split; [exact H1|]. split; [exact H2|].
  exact (register_twice_raises false "mul"%string ["mul"; "add"]%string 2%nat 3%nat
           sample_registry H1 H2).
Defined.

End Samples.

(** ** SLDS.log_prob: every introduced name is reduced away *)

Section LogProb.

Import eeg_funsor_slds.

Lemma s_inj (a b : Z) : s_ a = s_ b -> a = b.
Proof. unfold s_. cbn. intros E. injection E as E. exact (pretty_Z_inj _ _ E). Qed.

Lemma x_inj (a b : Z) : x_ a = x_ b -> a = b.
Proof. unfold x_. cbn. intros E. injection E as E. exact (pretty_Z_inj _ _ E). Qed.

Lemma s_ne_x (a b : Z) : s_ a ≠ x_ b.
Proof. unfold s_, x_. cbn. discriminate. Qed.

Lemma elem_of_window (n : string) (a b : nat) :
  n ∈ window a b <->
  exists t : nat, (a <= t < b)%nat /\ (n = s_ (Z.of_nat t) \/ n = x_ (Z.of_nat t)).
Proof.
  unfold window. rewrite elem_of_list_to_set, list_elem_of_In, in_flat_map. split.
  - intros (t & Ht & Hn). apply in_seq in Ht. exists t. split; [lia|].
    cbn in Hn. destruct Hn as [<-|[<-|[]]]; auto.
  - intros (t & Ht & Hn). exists t. split; [apply in_seq; lia|].
    cbn. destruct Hn as [->| ->]; auto.
Qed.

Lemma window_empty (a : nat) : window a a = ∅.
Proof. unfold window. rewrite Nat.sub_diag. reflexivity. Qed.

Lemma window_extend (a b : nat) :
  (a <= b)%nat ->
  window a (Datatypes.S b) = window a b ∪ {[ s_ (Z.of_nat b); x_ (Z.of_nat b) ]}.
Proof.
  intros Hab. apply set_eq. intros n.
  rewrite elem_of_union, !elem_of_window, elem_of_union, !elem_of_singleton. split.
  - intros (t & Ht & Hn). destruct (decide (t = b)) as [->|Hne]; [tauto|].
    left. exists t. split; [lia|exact Hn].
  - intros [(t & Ht & Hn)|Hn].
    + exists t. split; [lia|exact Hn].
    + exists b. split; [lia|exact Hn].
Qed.

Lemma window_remove (a b : nat) :
  window a b ∖ {[ s_ (Z.of_nat a); x_ (Z.of_nat a) ]} = window (Datatypes.S a) b.
Proof.
  apply set_eq. intros n.
  rewrite elem_of_difference, !elem_of_window, elem_of_union, !elem_of_singleton. split.
  - intros [(t & Ht & Hn) Hnot]. exists t. split; [|exact Hn].
    destruct (decide (t = a)) as [->|Hne]; [tauto|lia].
  - intros (t & Ht & Hn). split; [exists t; split; [lia|exact Hn]|].
    intros [E|E]; destruct Hn as [->| ->].
    + apply s_inj in E. lia.
    + symmetry in E. exact (s_ne_x _ _ E).
    + exact (s_ne_x _ _ E).
    + apply x_inj in E. lia.
Qed.

Lemma step_names_S (T : nat) :
  step_names (Datatypes.S T) = step_names T ++ [s_ (Z.of_nat T); x_ (Z.of_nat T)].
Proof.
  unfold step_names. rewrite seq_S, flat_map_app. cbn. reflexivity.
Qed.

(** One reduction over the names of step [a], the oldest step still in
    the inputs: both names are there and both go. *)
Lemma reduce_step_spec (a b k : nat) (l : Locals) :
  (a < b)%nat -> (a < k)%nat -> vars_ok k l ->
  inputs (log_prob_term l) = window a b ->
  reduced l = step_names a ->
  exists l',
    reduce_step (Z.of_nat a) l = Return l' /\
    vars_ok k l' /\
    inputs (log_prob_term l') = window (Datatypes.S a) b /\
    reduced l' = step_names (Datatypes.S a).
Proof.
  intros Hab Hak (Hm1 & Hs & Hx) Hin Hred. unfold reduce_step, getitem.
  rewrite (Hs a Hak), (Hx a Hak). cbn [mbind Outcome_bind name_of].
  eexists. split; [reflexivity|].
  cbn [log_prob_term s_vars x_vars reduced reduce inputs List.filter].
  split; [repeat split; assumption|]. split.
  - rewrite Hin. apply window_remove.
  - rewrite Hred, step_names_S, Hin. f_equal.
    rewrite !bool_decide_eq_true_2; [reflexivity| |];
      apply elem_of_window; exists a; split; auto; lia.
Qed.

Lemma subst_trans_probs (f : Funsor) :
  inputs (subst trans_probs [("s"%string, f)]) = inputs f.
Proof.
  unfold subst, trans_probs. cbn [inputs map fst snd union_list foldr].
  rewrite decide_True by set_solver. set_solver.
Qed.

Lemma subst_x_init_mvn (f : Funsor) :
  inputs (subst x_init_mvn [("value"%string, f)]) = {[ x_ 0 ]}.
Proof.
  unfold subst, x_init_mvn. cbn [inputs map fst snd union_list foldr].
  rewrite decide_False by (rewrite elem_of_singleton; discriminate).
  change (x_ 0) with "x_0"%string.
  assert ("x_0"%string ≠ "value"%string) by discriminate. set_solver.
Qed.

(** A term over ["x"], ["y"] and maybe ["s"], with all three substituted:
    what is left are the free names of the arguments for ["x"] and ["y"],
    and maybe those of the argument for ["s"]. *)
Lemma subst_matrix_and_mvn (ev : bool) (a b c : Funsor) :
  exists A : gset string,
    A ⊆ inputs a /\
    inputs (subst (matrix_and_mvn_to_funsor (if ev then ["s"%string] else []) "x" "y")
              [("s"%string, a); ("x"%string, b); ("y"%string, c)])
    = A ∪ inputs b ∪ inputs c.
Proof.
  assert (Hsx : "s"%string ≠ "x"%string) by discriminate.
  assert (Hsy : "s"%string ≠ "y"%string) by discriminate.
  assert (Hxy : "x"%string ≠ "y"%string) by discriminate.
  unfold subst, matrix_and_mvn_to_funsor. cbn [inputs map fst snd union_list foldr].
  rewrite (decide_True (P := "x"%string ∈ _)) by set_solver.
  rewrite (decide_True (P := "y"%string ∈ _)) by set_solver.
  destruct ev.
  - exists (inputs a). split; [reflexivity|].
    rewrite decide_True by set_solver. set_solver.
  - exists ∅. split; [set_solver|].
    rewrite decide_False by set_solver. set_solver.
Qed.

Lemma vars_ok_insert (k : nat) (l : Locals) (f : Funsor) :
  vars_ok k l ->
  vars_ok (Datatypes.S k)
    {| log_prob_term := f;
       s_vars := <[Z.of_nat k := Variable_ (s_ (Z.of_nat k))]> (s_vars l);
       x_vars := <[Z.of_nat k := Variable_ (x_ (Z.of_nat k))]> (x_vars l);
       reduced := reduced l |}.
Proof.
  intros (Hm1 & Hs & Hx). unfold vars_ok. cbn [s_vars x_vars]. repeat split.
  - rewrite lookup_insert_ne by lia. exact Hm1.
  - intros t Ht. destruct (decide (t = k)) as [->|Hne].
    + apply lookup_insert_eq.
    + rewrite lookup_insert_ne by lia. apply Hs. lia.
  - intros t Ht. destruct (decide (t = k)) as [->|Hne].
    + apply lookup_insert_eq.
    + rewrite lookup_insert_ne by lia. apply Hx. lia.
Qed.

(** One round of the loop keeps the invariant. *)
Lemma log_prob_body_spec {Row : Type} (self : SLDS) (k : nat) (y : Row) (l : Locals) :
  1 <= moment_matching_lag self ->
  log_prob_inv self k l ->
  exists l',
    log_prob_body self (Z.of_nat k) y l = Return l' /\
    log_prob_inv self (Datatypes.S k) l'.
Proof.
  intros HL (Hvars & Hin & Hred). unfold log_prob_body.
  set (l1 := {| log_prob_term := log_prob_term l;
                s_vars := <[Z.of_nat k := Variable_ (s_ (Z.of_nat k))]> (s_vars l);
                x_vars := <[Z.of_nat k := Variable_ (x_ (Z.of_nat k))]> (x_vars l);
                reduced := reduced l |}).
  assert (Hv1 : vars_ok (Datatypes.S k) l1) by (apply vars_ok_insert; exact Hvars).
  destruct Hv1 as (Hm1 & Hs & Hx).
  assert (Hsk : s_vars l1 !! Z.of_nat k = Some (Variable_ (s_ (Z.of_nat k)))) by (apply Hs; lia).
  assert (Hxk : x_vars l1 !! Z.of_nat k = Some (Variable_ (x_ (Z.of_nat k)))) by (apply Hx; lia).
  (* the term after the two additions that come before the reduction *)
  assert (Hmid : exists l3,
    (sprev ← getitem (s_vars l1) (Z.of_nat k - 1);
     st ← getitem (s_vars l1) (Z.of_nat k);
     let l2 := set_log_prob
                 (add (log_prob_term l1)
                    (Categorical (subst trans_probs [("s"%string, sprev)]) st)) l1 in
     (if Z.of_nat k =? 0 then
        xt ← getitem (x_vars l2) (Z.of_nat k);
        Return (set_log_prob
                  (add (log_prob_term l2) (subst x_init_mvn [("value"%string, xt)])) l2)
      else
        st ← getitem (s_vars l2) (Z.of_nat k);
        xprev ← getitem (x_vars l2) (Z.of_nat k - 1);
        xt ← getitem (x_vars l2) (Z.of_nat k);
        Return (set_log_prob
                  (add (log_prob_term l2)
                     (subst (x_trans_dist self)
                        [("s"%string, st); ("x"%string, xprev); ("y"%string, xt)])) l2)))
    = Return l3 /\
    s_vars l3 = s_vars l1 /\ x_vars l3 = x_vars l1 /\ reduced l3 = reduced l /\
    inputs (log_prob_term l3) = window (oldest self k) (Datatypes.S k)).
  { unfold getitem. destruct k as [|k'].
    - change (Z.of_nat 0 - 1) with (-1). rewrite Hm1, Hsk.
      cbn [mbind Outcome_bind]. cbv zeta. cbn [Z.eqb Z.of_nat s_vars x_vars set_log_prob].
      change (x_vars l1 !! 0) with (x_vars l1 !! Z.of_nat 0). rewrite Hxk.
      cbn [mbind Outcome_bind]. eexists. split; [reflexivity|].
      cbn [s_vars x_vars reduced set_log_prob log_prob_term]. repeat split.
      unfold add, Categorical. cbn [inputs]. rewrite subst_trans_probs, subst_x_init_mvn.
      cbn [inputs]. unfold l1. cbn [log_prob_term]. rewrite Hin.
      replace (oldest self 0) with 0%nat by (unfold oldest; lia).
      rewrite window_extend, window_empty by lia. cbn [Z.of_nat]. set_solver.
    - replace (Z.of_nat (Datatypes.S k') - 1) with (Z.of_nat k') by lia.
      rewrite (Hs k') by lia. rewrite Hsk. cbn [mbind Outcome_bind]. cbv zeta.
      destruct (Z.eqb_spec (Z.of_nat (Datatypes.S k')) 0) as [E|_]; [lia|].
      cbn [s_vars x_vars set_log_prob]. rewrite Hsk, Hxk, (Hx k') by lia.
      cbn [mbind Outcome_bind]. eexists. split; [reflexivity|].
      cbn [s_vars x_vars reduced set_log_prob log_prob_term]. repeat split.
      unfold add, Categorical, x_trans_dist. cbn [inputs].
      destruct (subst_matrix_and_mvn
                  (fine_transition_matrix self || fine_transition_noise self)
                  (Variable_ (s_ (Z.of_nat (Datatypes.S k'))))
                  (Variable_ (x_ (Z.of_nat k')))
                  (Variable_ (x_ (Z.of_nat (Datatypes.S k'))))) as (A & HA & ->).
      rewrite subst_trans_probs. cbn [inputs] in *. unfold l1. cbn [log_prob_term].
      rewrite Hin.
      assert (Hlo : (oldest self (Datatypes.S k') <= k')%nat) by (unfold oldest; lia).
      rewrite (window_extend _ (Datatypes.S k')) by lia.
      assert (Hs' : s_ (Z.of_nat k') ∈ window (oldest self (Datatypes.S k')) (Datatypes.S k')).
      { apply elem_of_window. exists k'. split; [lia|auto]. }
      assert (Hx' : x_ (Z.of_nat k') ∈ window (oldest self (Datatypes.S k')) (Datatypes.S k')).
      { apply elem_of_window. exists k'. split; [lia|auto]. }
      set_solver. }
  destruct Hmid as (l3 & Hl3 & Hs3 & Hx3 & Hr3 & Hin3).
  match goal with |- exists l', ?c = _ /\ _ =>
    assert (Hc : c = (l4 ← (if Z.of_nat k >? moment_matching_lag self - 1
                            then reduce_step (Z.of_nat k - moment_matching_lag self) l3
                            else Return l3);
                      st ← getitem (s_vars l4) (Z.of_nat k);
                      xt ← getitem (x_vars l4) (Z.of_nat k);
                      Return (set_log_prob
                                (add (log_prob_term l4)
                                   (subst (y_dist self)
                                      [("s"%string, st); ("x"%string, xt);
                                       ("y"%string, row_term y)])) l4)))
  end.
  { fold l1. revert Hl3. unfold getitem.
    destruct (s_vars l1 !! (Z.of_nat k - 1)); [|discriminate].
    destruct (s_vars l1 !! Z.of_nat k); [|discriminate].
    cbn [mbind Outcome_bind]. cbv zeta. intros ->. reflexivity. }
  rewrite Hc. clear Hc Hl3.
  assert (Hv3 : vars_ok (Datatypes.S k) l3).
  { unfold vars_ok. rewrite Hs3, Hx3. repeat split; assumption. }
  (* the reduction, when [k] has reached the lag *)
  assert (Hred4 : exists l4,
    (if Z.of_nat k >? moment_matching_lag self - 1
     then reduce_step (Z.of_nat k - moment_matching_lag self) l3
     else Return l3) = Return l4 /\
    vars_ok (Datatypes.S k) l4 /\
    inputs (log_prob_term l4) = window (oldest self (Datatypes.S k)) (Datatypes.S k) /\
    reduced l4 = step_names (oldest self (Datatypes.S k))).
  { destruct (Z.gtb_spec (Z.of_nat k) (moment_matching_lag self - 1)) as [Hge|Hlt].
    - replace (Z.of_nat k - moment_matching_lag self) with (Z.of_nat (oldest self k))
        by (unfold oldest; lia).
      replace (oldest self (Datatypes.S k)) with (Datatypes.S (oldest self k))
        by (unfold oldest; lia).
      apply (reduce_step_spec (oldest self k) (Datatypes.S k) (Datatypes.S k) l3);
        try assumption; try (unfold oldest; lia).
      rewrite Hr3. exact Hred.
    - exists l3. split; [reflexivity|]. split; [exact Hv3|].
      replace (oldest self (Datatypes.S k)) with (oldest self k) by (unfold oldest; lia).
      split; [exact Hin3|]. rewrite Hr3. exact Hred. }
  destruct Hred4 as (l4 & -> & Hv4 & Hin4 & Hr4). cbn [mbind Outcome_bind].
  destruct Hv4 as (Hm4 & Hs4 & Hx4). unfold getitem.
  rewrite (Hs4 k), (Hx4 k) by lia. cbn [mbind Outcome_bind].
  eexists. split; [reflexivity|]. unfold log_prob_inv.
  cbn [s_vars x_vars reduced set_log_prob log_prob_term].
  split; [repeat split; assumption|]. split; [|exact Hr4].
  unfold add, y_dist. cbn [inputs].
  destruct (subst_matrix_and_mvn
              (fine_observation_matrix self || fine_observation_noise self)
              (Variable_ (s_ (Z.of_nat k))) (Variable_ (x_ (Z.of_nat k)))
              (row_term y)) as (A & HA & ->).
  cbn [inputs row_term] in *. rewrite Hin4.
  assert (Hlo : (oldest self (Datatypes.S k) <= k)%nat) by (unfold oldest; lia).
  assert (Hs' : s_ (Z.of_nat k) ∈ window (oldest self (Datatypes.S k)) (Datatypes.S k)).
  { apply elem_of_window. exists k. split; [lia|auto]. }
  assert (Hx' : x_ (Z.of_nat k) ∈ window (oldest self (Datatypes.S k)) (Datatypes.S k)).
  { apply elem_of_window. exists k. split; [lia|auto]. }
  set_solver.
Qed.

Lemma log_prob_loop_spec {Row : Type} (self : SLDS) (data : list Row) :
  1 <= moment_matching_lag self ->
  forall (k : nat) (l : Locals),
  log_prob_inv self k l ->
  exists l',
    log_prob_loop self (enumerate_from k data) l = Return l' /\
    log_prob_inv self (k + length data) l'.
Proof.
  intros HL. induction data as [|y data IH]; intros k l Hinv.
  - exists l. split; [reflexivity|]. cbn [length]. rewrite Nat.add_0_r. exact Hinv.
  - change (enumerate_from k (y :: data))
      with ((k, y) :: enumerate_from (Datatypes.S k) data).
    cbn [log_prob_loop].
    destruct (log_prob_body_spec self k y l HL Hinv) as (l1 & -> & Hinv1).
    cbn [mbind Outcome_bind].
    destruct (IH (Datatypes.S k) l1 Hinv1) as (l' & Hl' & Hinv').
    exists l'. split; [exact Hl'|]. cbn [length].
    replace (k + Datatypes.S (length data))%nat with (Datatypes.S k + length data)%nat by lia.
    exact Hinv'.
Qed.

Lemma log_prob_init_inv (self : SLDS) :
  1 <= moment_matching_lag self -> log_prob_inv self 0 log_prob_init.
Proof.
  intros HL. unfold log_prob_inv, vars_ok, log_prob_init.
  cbn [s_vars x_vars log_prob_term reduced inputs].
  replace (oldest self 0) with 0%nat by (unfold oldest; lia).
  repeat split; try (intros; lia).
Qed.

(** The final loop reduces the remaining steps one after the other. *)
Lemma final_loop_spec (self : SLDS) (T : nat) :
  forall (n j : nat) (l : Locals),
  moment_matching_lag self <= Z.of_nat T ->
  let a := Z.to_nat (Z.of_nat T - moment_matching_lag self + Z.of_nat j) in
  (a + n <= T)%nat ->
  0 <= Z.of_nat T - moment_matching_lag self + Z.of_nat j ->
  vars_ok T l ->
  inputs (log_prob_term l) = window a T ->
  reduced l = step_names a ->
  exists l',
    final_loop self (Z.of_nat T) (seq j n) l = Return l' /\
    inputs (log_prob_term l') = window (a + n) T /\
    reduced l' = step_names (a + n).
Proof.
  induction n as [|n IH]; intros j l HL a Han Hpos Hv Hin Hred.
  - exists l. rewrite Nat.add_0_r. auto.
  - cbn [seq final_loop].
    replace (Z.of_nat T - moment_matching_lag self + Z.of_nat j) with (Z.of_nat a)
      by (unfold a; lia).
    destruct (reduce_step_spec a T T l ltac:(lia) ltac:(lia) Hv Hin Hred)
      as (l1 & -> & Hv1 & Hin1 & Hred1).
    cbn [mbind Outcome_bind].
    destruct (IH (Datatypes.S j) l1 HL) as (l' & Hl' & Hin' & Hred').
    + unfold a in Han. lia.
    + lia.
    + exact Hv1.
    + rewrite Hin1. f_equal. unfold a. lia.
    + rewrite Hred1. f_equal. unfold a. lia.
    + exists l'. split; [exact Hl'|].
      replace (a + Datatypes.S n)%nat
        with (Z.to_nat (Z.of_nat T - moment_matching_lag self + Z.of_nat (Datatypes.S j)) + n)%nat
        by (unfold a; lia).
      auto.
Qed.

Lemma elem_of_step_names (n : string) (T : nat) :
  n ∈ step_names T <->
  exists t : nat, (t < T)%nat /\ (n = s_ (Z.of_nat t) \/ n = x_ (Z.of_nat t)).
Proof.
  transitivity (n ∈ window 0 T).
  - unfold window, step_names. rewrite elem_of_list_to_set, Nat.sub_0_r. reflexivity.
  - rewrite elem_of_window. split; intros (t & Ht & Hn); exists t; (split; [lia|exact Hn]).
Qed.

Lemma NoDup_step_names (T : nat) : NoDup (step_names T).
Proof.
  induction T as [|T IH]; [constructor|].
  rewrite step_names_S. apply NoDup_app. split; [exact IH|]. split.
  - intros n Hn Hlast. apply elem_of_step_names in Hn as (t & Ht & Hn).
    rewrite elem_of_cons, list_elem_of_singleton in Hlast.
    destruct Hlast as [->| ->]; destruct Hn as [E|E].
    + apply s_inj in E. lia.
    + exact (s_ne_x _ _ E).
    + symmetry in E. exact (s_ne_x _ _ E).
    + apply x_inj in E. lia.
  - apply NoDup_cons. split; [|apply NoDup_singleton].
    rewrite list_elem_of_singleton. apply s_ne_x.
Qed.

(** C4. With [1 <= moment_matching_lag <= T], [log_prob] reaches its
    [return]: the assertion on the free names passes, the final term has
    no inputs, and the names the reductions have taken out of the inputs
    are [s_0, x_0, ..., s_(T-1), x_(T-1)], each one once. The reductions
    inside the loop take out the steps before [T - moment_matching_lag],
    the final loop the others. *)
Theorem log_prob_reduces_every_variable {Row : Type} (self : SLDS) (data : list Row) :
  1 <= moment_matching_lag self <= Z.of_nat (length data) ->
  let T := length data in
  let kept := Z.to_nat (Z.of_nat T - moment_matching_lag self) in
  exists l_loop l,
    log_prob_loop self (enumerate data) log_prob_init = Return l_loop /\
    inputs (log_prob_term l_loop) = window kept T /\
    reduced l_loop = step_names kept /\
    log_prob self data = Return l /\
    inputs (log_prob_term l) = ∅ /\
    reduced l = step_names T /\
    NoDup (reduced l) /\
    (forall t : nat, (t < T)%nat ->
       s_ (Z.of_nat t) ∈ reduced l /\ x_ (Z.of_nat t) ∈ reduced l).
Proof.
  intros [HL HT] T kept.
  destruct (log_prob_loop_spec self data HL 0 log_prob_init (log_prob_init_inv self HL))
    as (l1 & Hloop & Hv1 & Hin1 & Hred1).
  cbn [Nat.add] in Hv1, Hin1, Hred1. fold T in Hv1, Hin1, Hred1.
  change (oldest self T) with kept in Hin1, Hred1.
  destruct (final_loop_spec self T (Z.to_nat (moment_matching_lag self)) 0 l1)
    as (l2 & Hfinal & Hin2 & Hred2); try assumption; try (unfold T; lia).
  - rewrite Hin1. f_equal. unfold kept. lia.
  - rewrite Hred1. f_equal. unfold kept. lia.
  - replace (Z.to_nat (Z.of_nat T - moment_matching_lag self + Z.of_nat 0)
             + Z.to_nat (moment_matching_lag self))%nat with T in Hin2, Hred2
      by (unfold T; lia).
    rewrite window_empty in Hin2.
    exists l1, l2. split; [exact Hloop|]. split; [exact Hin1|]. split; [exact Hred1|].
    split.
    + unfold log_prob. unfold enumerate in Hloop. unfold enumerate. rewrite Hloop.
      cbn [mbind Outcome_bind]. unfold range. fold T. rewrite Hfinal.
      cbn [mbind Outcome_bind]. rewrite decide_True by exact Hin2. reflexivity.
    + split; [exact Hin2|]. split; [exact Hred2|]. rewrite Hred2.
      split; [apply NoDup_step_names|].
      intros t Ht. split; apply elem_of_step_names; exists t; auto.
Qed.

End LogProb.

(** ** SLDS.filter_and_predict: the shapes of the result *)

Section FilterAndPredict.

Import eeg_funsor_slds.

Lemma broadcast_dim_refl (x : nat) : broadcast_dim x x = Return x.
Proof. unfold broadcast_dim. rewrite Nat.eqb_refl. reflexivity. Qed.

Lemma broadcast_dim_1_r (x : nat) : broadcast_dim x 1 = Return x.
Proof.
  unfold broadcast_dim. destruct (Nat.eqb_spec x 1) as [->|_]; reflexivity.
Qed.

Lemma broadcast_dim_1_l (y : nat) : broadcast_dim 1 y = Return y.
Proof.
  unfold broadcast_dim. destruct (Nat.eqb_spec 1 y) as [<-|_]; reflexivity.
Qed.

Lemma torch_stack_const {A} (f : A -> shape) (s : shape) (l : list A) :
  l ≠ [] -> Forall (fun x => f x = s) l ->
  torch_stack (map f l) = Return (length l :: s).
Proof.
  intros Hne Hall. destruct l as [|x l]; [congruence|].
  apply Forall_cons in Hall as [Hx Hall]. cbn [map torch_stack]. rewrite Hx.
  assert (Hb : forallb (fun s' => bool_decide (s' = s)) (map f l) = true).
  { apply forallb_forall. intros s' Hs'. apply in_map_iff in Hs' as (y & <- & Hy).
    apply bool_decide_eq_true_2. rewrite Forall_forall in Hall. apply Hall.
    apply list_elem_of_In. exact Hy. }
  rewrite Hb. cbn [length]. rewrite length_map. reflexivity.
Qed.

(** The mean function of [n >= 1] pairs has one row of [obs_dim] entries
    per pair. *)
Lemma mean_function_spec (self : SLDS) (dists : list CatMvn) :
  dists ≠ [] -> Forall (fun d => d = funsor_to_cat_and_mvn self) dists ->
  mean_function self dists = Return [length dists; obs_dim self].
Proof.
  intros Hne Hall. unfold mean_function.
  rewrite (torch_stack_const mean [num_components self; hidden_dim self]); [|exact Hne|].
  2:{ eapply Forall_impl; [exact Hall|]. intros d ->. reflexivity. }
  rewrite (torch_stack_const logits [num_components self]); [|exact Hne|].
  2:{ eapply Forall_impl; [exact Hall|]. intros d ->. reflexivity. }
  cbn [mbind Outcome_bind unsqueeze_m2 rev app].
  assert (Hmat : matmul [length dists; num_components self; 1%nat; hidden_dim self]
                   (observation_matrix self)
                 = Return [length dists; num_components self; 1%nat; obs_dim self]).
  { unfold matmul, observation_matrix. destruct (fine_observation_matrix self);
      cbn [rev app]; rewrite Nat.eqb_refl; cbn [broadcast_rev];
      rewrite ?broadcast_dim_refl; reflexivity. }
  rewrite Hmat. cbn [mbind Outcome_bind squeeze_m2 rev app Nat.eqb sum_m1_keepdim].
  unfold broadcast. cbn [rev app broadcast_rev].
  rewrite broadcast_dim_1_r, broadcast_dim_refl.
  cbn [mbind Outcome_bind rev app unsqueeze_m1 broadcast_rev].
  rewrite broadcast_dim_1_l, !broadcast_dim_refl.
  cbn [mbind Outcome_bind rev app sum_m2]. reflexivity.
Qed.

(** The lists after the loop, started at a step [k >= 1]: one more entry
    of each list per row. *)
Lemma filter_loop_from_positive {Row : Type} (self : SLDS) (smoothing : bool)
    (data : list Row) :
  forall (k : nat) (l : Lists), (1 <= k)%nat ->
  filter_loop self smoothing (enumerate_from k data) l
  = {| predictive_dists :=
         predictive_dists l ++ replicate (length data) (funsor_to_cat_and_mvn self);
       filtering_dists :=
         filtering_dists l ++ (if smoothing then replicate (length data) tt else []);
       test_LLs := test_LLs l ++ replicate (length data) tt |}.
Proof.
  induction data as [|y data IH]; intros k l Hk.
  - cbn. rewrite !app_nil_r. destruct smoothing; rewrite ?app_nil_r; destruct l; reflexivity.
  - change (enumerate_from k (y :: data))
      with ((k, y) :: enumerate_from (Datatypes.S k) data).
    cbn [filter_loop]. destruct (Nat.ltb_spec 0 k) as [_|Hlt]; [|lia].
    rewrite IH by lia. cbn [length replicate].
    destruct smoothing; cbn [predictive_dists filtering_dists test_LLs];
      rewrite <- ?app_assoc; reflexivity.
Qed.

Lemma filter_loop_spec {Row : Type} (self : SLDS) (smoothing : bool) (y : Row)
    (data : list Row) :
  filter_loop self smoothing (enumerate (y :: data))
    {| predictive_dists := []; filtering_dists := []; test_LLs := [] |}
  = {| predictive_dists := replicate (length data) (funsor_to_cat_and_mvn self);
       filtering_dists := if smoothing then replicate (Datatypes.S (length data)) tt else [];
       test_LLs := replicate (length data) tt |}.
Proof.
  unfold enumerate.
  change (enumerate_from 0 (y :: data)) with ((0%nat, y) :: enumerate_from 1 data).
  cbn [filter_loop Nat.ltb Nat.leb]. rewrite filter_loop_from_positive by lia.
  destruct smoothing; reflexivity.
Qed.

Lemma last_replicate_S {A} (n : nat) (x : A) :
  last (replicate (Datatypes.S n) x) = Some x.
Proof.
  induction n as [|n IH]; [reflexivity|].
  change (replicate (Datatypes.S (Datatypes.S n)) x)
    with (x :: replicate (Datatypes.S n) x).
  rewrite last_cons, IH. reflexivity.
Qed.

Lemma smoothing_loop_spec (l : Lists) (ts : list nat) :
  forall smoothing_dists : list unit,
  smoothing_dists ≠ [] ->
  Forall (fun t => (t < length (predictive_dists l))%nat
                   /\ (t < length (filtering_dists l))%nat) ts ->
  smoothing_loop l ts smoothing_dists
  = Return (smoothing_dists ++ replicate (length ts) tt).
Proof.
  induction ts as [|t ts IH]; intros sd Hne Hall.
  - cbn. rewrite app_nil_r. reflexivity.
  - apply Forall_cons in Hall as [[Hp Hf] Hall]. cbn [smoothing_loop].
    unfold list_last, list_getitem.
    destruct (last sd) eqn:Hlast; [|apply last_None in Hlast; contradiction].
    destruct (lookup_lt_is_Some_2 _ _ Hp) as [p ->].
    destruct (lookup_lt_is_Some_2 _ _ Hf) as [f ->].
    cbn [mbind Outcome_bind]. rewrite IH; [|destruct sd; discriminate|exact Hall].
    rewrite <- app_assoc. reflexivity.
Qed.

(** With fewer than two time steps there is no predictive distribution to
    stack, and the call raises. *)
Lemma filter_and_predict_short_data {Row : Type} (self : SLDS) (data : list Row)
    (smoothing : bool) :
  (length data < 2)%nat ->
  exists e, filter_and_predict self data smoothing = Raise e.
Proof.
  intros Hlen. destruct data as [|y [|y' data]]; [| |cbn in Hlen; lia].
  - destruct smoothing; eexists; reflexivity.
  - destruct smoothing; eexists; reflexivity.
Qed.

(** C5 (as amended). On [T >= 2] time steps [filter_and_predict] returns a
    predictive MSE array of length [T] and a log-likelihood array of
    length [T - 1]; with [smoothing] it returns two more arrays, the
    predictive means and the smoothed means, both with [T] rows of
    [obs_dim] entries. *)
Theorem filter_and_predict_shapes {Row : Type} (self : SLDS) (data : list Row)
    (smoothing : bool) :
  (2 <= length data)%nat ->
  let T := length data in
  filter_and_predict self data smoothing
  = Return (if smoothing
            then [[T]; [(T - 1)%nat]; [T; obs_dim self]; [T; obs_dim self]]
            else [[T]; [(T - 1)%nat]]).
Proof.
  intros Hlen T. destruct data as [|y data]; [cbn in Hlen; lia|].
  assert (Hn : (1 <= length data)%nat) by (cbn in Hlen; lia).
  unfold filter_and_predict. rewrite filter_loop_spec.
  cbn [predictive_dists filtering_dists test_LLs].
  assert (Hpm : mean_function self (replicate (length data) (funsor_to_cat_and_mvn self))
                = Return [length data; obs_dim self]).
  { rewrite mean_function_spec.
    - rewrite length_replicate. reflexivity.
    - destruct data; [cbn in Hn; lia|discriminate].
    - apply Forall_replicate. reflexivity. }
  assert (Htail : forall sm : Outcome shape,
    (predictive_means ← mean_function self
                          (replicate (length data) (funsor_to_cat_and_mvn self));
     ydim ← size_m1 predictive_means;
     predictive_means ← torch_cat_m2 [1%nat; ydim] predictive_means;
     diff ← broadcast predictive_means [length (y :: data); obs_dim self];
     predictive_mse ← mean_m1 diff;
     if smoothing then
       smoothing_means ← sm;
       Return [predictive_mse; [length (replicate (length data) tt)];
               predictive_means; smoothing_means]
     else Return [predictive_mse; [length (replicate (length data) tt)]])
    = (if smoothing then
         smoothing_means ← sm;
         Return [[T]; [(T - 1)%nat]; [T; obs_dim self]; smoothing_means]
       else Return [[T]; [(T - 1)%nat]])).
  { intros sm. rewrite Hpm.
    cbn [mbind Outcome_bind size_m1 rev app torch_cat_m2].
    rewrite bool_decide_eq_true_2 by auto.
    cbn [mbind Outcome_bind rev app]. unfold broadcast. cbn [rev app broadcast_rev length].
    change (1 + length data)%nat with (Datatypes.S (length data)).
    rewrite !broadcast_dim_refl. cbn [mbind Outcome_bind rev app mean_m1].
    rewrite length_replicate. subst T. cbn [length].
    replace (Datatypes.S (length data) - 1)%nat with (length data) by lia.
    reflexivity. }
  destruct smoothing.
  - unfold list_last. rewrite last_replicate_S.
    cbn [mbind Outcome_bind].
    rewrite smoothing_loop_spec; [|discriminate|].
    2:{ apply Forall_forall. intros t Ht. cbn [predictive_dists filtering_dists].
        rewrite !length_replicate. apply list_elem_of_In, in_rev in Ht.
        unfold range in Ht. apply in_seq in Ht. cbn [length] in Ht. lia. }
    cbn [mbind Outcome_bind].
    rewrite Htail.
    rewrite mean_function_spec.
    + cbn [mbind Outcome_bind]. rewrite length_map, length_rev, length_app, length_replicate,
        length_rev. unfold range. rewrite length_seq. subst T. cbn [length].
      replace (1 + Z.to_nat (Z.of_nat (Datatypes.S (length data)) - 1))%nat
        with (Datatypes.S (length data)) by lia.
      reflexivity.
    + rewrite rev_app_distr. cbn [rev app]. intros E. apply (f_equal (@length _)) in E.
      rewrite length_map, length_app in E. cbn in E. lia.
    + apply Forall_forall. intros d Hd. apply list_elem_of_In, in_map_iff in Hd as (u & <- & _).
      reflexivity.
  - cbn [mbind Outcome_bind]. exact (Htail (Raise IndexError)).
Qed.

End FilterAndPredict.

(** ** FunsorDistribution.mode *)

Section Mode.

Import distribution.

Lemma not_in_globals (x : string) :
  x ∈ undefined_names -> x ∉ module_globals.
Proof.
  intros Hx Hin. unfold undefined_names in Hx. unfold module_globals in Hin.
  rewrite elem_of_list_to_set in Hin.
  repeat (apply elem_of_cons in Hx as [->|Hx];
          [repeat (apply elem_of_cons in Hin as [Hin|Hin]; [discriminate|]);
           apply elem_of_nil in Hin; contradiction|]).
  apply elem_of_nil in Hx. contradiction.
Qed.

(** C8. Whatever the instance, [mode] returns nothing: its first
    statement reads [AdjointTape], which neither the module nor the
    built-ins bind, and the call ends there with a [NameError]. None of
    the four names [AdjointTape], [ops], [delta] and [sample_shape] can be
    read in the frame in which the body starts. *)
Theorem mode_never_returns (builtins : gset string) (self : FunsorDistribution) :
  (forall x, x ∈ undefined_names -> x ∉ builtins) ->
  mode builtins self = Raise (NameError "AdjointTape") /\
  is_name_error (NameError "AdjointTape") = true /\
  forall x, x ∈ undefined_names ->
    exists e, fst (load builtins x {[ "self"%string ]}) = Raise e /\ is_name_error e = true.
Proof.
  intros Hb.
  assert (Hload : forall x, x ∈ undefined_names ->
            exists e, fst (load builtins x {[ "self"%string ]}) = Raise e
                      /\ is_name_error e = true).
  { intros x Hx. unfold load. destruct (decide (x ∈ mode_locals)) as [Hl|Hl].
    - destruct (decide (x ∈ ({[ "self"%string ]} : gset string))) as [Hs|Hs].
      + apply elem_of_singleton in Hs. subst x. exfalso. unfold undefined_names in Hx.
        repeat (apply elem_of_cons in Hx as [Hx|Hx]; [discriminate|]).
        apply elem_of_nil in Hx. contradiction.
      + eexists. split; reflexivity.
    - destruct (decide (x ∈ module_globals ∪ builtins)) as [Hg|Hg].
      + exfalso. apply elem_of_union in Hg as [Hg|Hg].
        * exact (not_in_globals x Hx Hg).
        * exact (Hb x Hx Hg).
      + eexists. split; reflexivity. }
  split; [|split; [reflexivity|exact Hload]].
  assert (Hat : "AdjointTape"%string ∈ undefined_names) by (apply elem_of_cons; auto).
  unfold mode, mode_body, fseq, fbind at 1. cbn [loads]. unfold fbind at 1, load.
  rewrite decide_False.
  - rewrite decide_False; [reflexivity|].
    intros Hg. apply elem_of_union in Hg as [Hg|Hg].
    + exact (not_in_globals _ Hat Hg).
    + exact (Hb _ Hat Hg).
  - unfold mode_locals. rewrite elem_of_list_to_set. intros Hin.
    repeat (apply elem_of_cons in Hin as [Hin|Hin]; [discriminate|]).
    apply elem_of_nil in Hin. contradiction.
Qed.

End Mode.

(** ** The properties of the example and of the wrapper on sample objects *)

Section MoreSamples.

Import eeg_funsor_slds distribution.

(** Three time steps with a lag of two: step 0 is reduced inside the loop,
    steps 1 and 2 by the final loop. *)
Example sample_log_prob :
  (fun l => (elements (inputs (log_prob_term l)), reduced l) : list string * list string)
    <$> match log_prob sample_slds [tt; tt; tt] with
        | Return l => Some l
        | Raise _ => None
        end
  = Some ([], ["s_0"; "x_0"; "s_1"; "x_1"; "s_2"; "x_2"]%string).
Proof. vm_compute. reflexivity. Qed.

(** With fewer time steps than the lag the final loop reads [s_vars[-1]],
    the initial tensor, which has no [name]. *)
Example sample_log_prob_short :
  log_prob sample_slds [tt] = Raise (AttributeError "name").
Proof. vm_compute. reflexivity. Qed.

Lemma log_prob_reduces_every_variable_witness :
  1 <= moment_matching_lag sample_slds <= Z.of_nat (length [tt; tt; tt]) /\
  let T := length [tt; tt; tt] in
  let kept := Z.to_nat (Z.of_nat T - moment_matching_lag sample_slds) in
  exists l_loop l,
    log_prob_loop sample_slds (enumerate [tt; tt; tt]) log_prob_init = Return l_loop /\
    inputs (log_prob_term l_loop) = window kept T /\
    reduced l_loop = step_names kept /\
    log_prob sample_slds [tt; tt; tt] = Return l /\
    inputs (log_prob_term l) = ∅ /\
    reduced l = step_names T /\
    NoDup (reduced l) /\
    (forall t : nat, (t < T)%nat ->
       s_ (Z.of_nat t) ∈ reduced l /\ x_ (Z.of_nat t) ∈ reduced l).
Proof.
  assert (H : 1 <= moment_matching_lag sample_slds <= Z.of_nat (length [tt; tt; tt])).
  { cbn. lia. }
  split; [exact H|].
  exact (log_prob_reduces_every_variable sample_slds [tt; tt; tt] H).
Defined.

(** C5 (counterexample). On three time steps the predictive MSE array has
    three entries, not two; the log-likelihood array has two. *)
Lemma predictive_mse_has_length_T :
  exists mse lls,
    filter_and_predict sample_slds [tt; tt; tt] false = Return [mse; lls] /\
    lls = [(3 - 1)%nat] /\
    mse = [3%nat] /\
    mse <> [(3 - 1)%nat].
Proof.
  eexists _, _. split; [vm_compute; reflexivity|].
  split; [reflexivity|]. split; [reflexivity|]. discriminate.
Qed.

(** With [smoothing] the tuple has four tensors, not three. *)
Example sample_smoothing :
  filter_and_predict sample_slds [tt; tt; tt] true
  = Return [[3%nat]; [2%nat]; [3%nat; 14%nat]; [3%nat; 14%nat]].
Proof. vm_compute. reflexivity. Qed.

Lemma filter_and_predict_shapes_witness :
  (2 <= length [tt; tt; tt])%nat /\
  filter_and_predict sample_slds [tt; tt; tt] true
  = Return [[length [tt; tt; tt]]; [(length [tt; tt; tt] - 1)%nat];
            [length [tt; tt; tt]; obs_dim sample_slds];
            [length [tt; tt; tt]; obs_dim sample_slds]].
Proof.
  assert (H : (2 <= length [tt; tt; tt])%nat) by (cbn; lia).
  split; [exact H|].
  exact (filter_and_predict_shapes sample_slds [tt; tt; tt] true H).
Defined.

Lemma undefined_names_not_builtin :
  forall x, x ∈ undefined_names -> x ∉ python_builtins.
Proof.
  intros x Hx. unfold undefined_names in Hx.
  repeat (apply elem_of_cons in Hx as [->|Hx];
          [apply (bool_decide_unpack _); vm_compute; reflexivity|]).
  apply elem_of_nil in Hx. contradiction.
Defined.

Lemma mode_never_returns_witness :
  (forall x, x ∈ undefined_names -> x ∉ python_builtins) /\
  mode python_builtins sample_distribution = Raise (NameError "AdjointTape") /\
  is_name_error (NameError "AdjointTape") = true /\
  forall x, x ∈ undefined_names ->
    exists e, fst (load python_builtins x {[ "self"%string ]}) = Raise e
              /\ is_name_error e = true.
Proof.
  split; [exact undefined_names_not_builtin|].
  exact (mode_never_returns python_builtins sample_distribution undefined_names_not_builtin).
Defined.

End MoreSamples.

(** * Further properties *)

(** ** Scopes, wrappers and default handlers *)

Section ScopeProps.

Import handlers.
Context {S : Type}.
Implicit Types (st hs : list (Handler S)) (msg m : Msg S) (w : World S) (s : S).

(** On a stack of one handler the message goes through [process], the
    possible call of the function and [postprocess]. *)
Lemma apply_stack_singleton (h : Handler S) msg s tr :
  apply_stack msg {| HANDLER_STACK := [h]; mem := s; trace := tr |}
  = (Return (fst (run_postprocess [h] (run_fill (run_process [h] (msg, s))))),
     {| HANDLER_STACK := [h];
        mem := snd (run_postprocess [h] (run_fill (run_process [h] (msg, s))));
        trace := tr ++ [EvProcess (hid h)]
                    ++ call_events (fst (run_process [h] (msg, s)))
                    ++ [EvPostprocess (hid h)] |}).
Proof.
  destruct (apply_stack_spec [h] msg s tr ltac:(discriminate)) as (n & Hn & _ & _ & Heq).
  cbn [length] in Hn. assert (n = 1%nat) as -> by lia. exact Heq.
Qed.

Lemma effectful_nonempty ty (f : Callable S) a k st s tr :
  st ≠ [] ->
  effectful ty f a k {| HANDLER_STACK := st; mem := s; trace := tr |}
  = bind (apply_stack (initial_msg ty f a k)) (fun m => ret (value m))
      {| HANDLER_STACK := st; mem := s; trace := tr |}.
Proof.
  intros Hst. unfold effectful, bind at 1, get_stack. cbn [HANDLER_STACK].
  destruct st; [congruence|reflexivity].
Qed.

(** [effectful] leaves [HANDLER_STACK] as it finds it. *)
Lemma effectful_keeps_stack ty (f : Callable S) a k st s tr :
  HANDLER_STACK (snd (effectful ty f a k {| HANDLER_STACK := st; mem := s; trace := tr |}))
  = st.
Proof.
  destruct (decide (st = [])) as [->|Hne].
  - unfold effectful, bind, get_stack, call_fn. cbn [HANDLER_STACK mem].
    destruct (call f a k s). reflexivity.
  - rewrite effectful_nonempty by exact Hne.
    destruct (apply_stack_spec st (initial_msg ty f a k) s tr Hne) as (n & _ & _ & _ & Heq).
    cbv zeta in Heq. unfold bind. rewrite Heq. reflexivity.
Qed.

(** A [with] statement around a body that leaves the stack as it is
    inside the scope. *)
Lemma with_balanced {A} (self : Handler S) (body : M A) st s tr :
  HANDLER_STACK (snd (body {| HANDLER_STACK := st ++ [self]; mem := s; trace := tr |}))
  = st ++ [self] ->
  with_ self body {| HANDLER_STACK := st; mem := s; trace := tr |}
  = (fst (body {| HANDLER_STACK := st ++ [self]; mem := s; trace := tr |}),
     set_stack st (snd (body {| HANDLER_STACK := st ++ [self]; mem := s; trace := tr |}))).
Proof.
  intros Hbody. unfold with_, bind, __enter__, set_stack at 1. cbn [HANDLER_STACK mem trace].
  destruct (body {| HANDLER_STACK := st ++ [self]; mem := s; trace := tr |}) as [o w'].
  cbn [snd fst] in *. unfold __exit__. rewrite Hbody, last_snoc. unfold is_.
  rewrite Nat.eqb_refl, removelast_last. destruct o; reflexivity.
Qed.

(** An effectful operation inside the scope of one handler, entered from
    an empty stack. *)
Lemma with_effectful_from_empty_stack (h : Handler S) ty (f : Callable S) a k s tr :
  with_ h (effectful ty f a k) {| HANDLER_STACK := []; mem := s; trace := tr |}
  = (Return (value (fst (postprocess h
                           (fst (run_fill (process h (initial_msg ty f a k) s)))
                           (snd (run_fill (process h (initial_msg ty f a k) s)))))),
     {| HANDLER_STACK := [];
        mem := snd (postprocess h
                      (fst (run_fill (process h (initial_msg ty f a k) s)))
                      (snd (run_fill (process h (initial_msg ty f a k) s))));
        trace := tr ++ [EvProcess (hid h)]
                    ++ call_events (fst (process h (initial_msg ty f a k) s))
                    ++ [EvPostprocess (hid h)] |}).
Proof.
  rewrite (with_balanced h (effectful ty f a k) [] s tr) by (apply effectful_keeps_stack).
  cbn [app]. rewrite effectful_nonempty by discriminate.
  unfold bind. rewrite apply_stack_singleton. reflexivity.
Qed.

(** X1. The handler of a [with] statement is popped on every way out: if
    the body leaves the stack as it was inside the scope, then after the
    statement the stack is what it was before it, and the outcome, the
    state and the events are those of the body, whether it has returned or
    raised. *)
Theorem with_releases_handler {A} (self : Handler S) (body : M A) st s tr :
  HANDLER_STACK (snd (body {| HANDLER_STACK := st ++ [self]; mem := s; trace := tr |}))
  = st ++ [self] ->
  with_ self body {| HANDLER_STACK := st; mem := s; trace := tr |}
  = (fst (body {| HANDLER_STACK := st ++ [self]; mem := s; trace := tr |}),
     set_stack st (snd (body {| HANDLER_STACK := st ++ [self]; mem := s; trace := tr |}))).
Proof. apply with_balanced. Qed.

(** X2. A handler called as a function intercepts the effectful operation
    it wraps even when no handler is installed: the operation does not
    take the direct path, the message goes through the two hooks of the
    handler, and the stack is empty again afterwards. *)
Theorem handler_call_intercepts (h : Handler S) ty (f : Callable S) a k s tr :
  let p := process h (initial_msg ty f a k) s in
  let q := run_fill p in
  let r := postprocess h (fst q) (snd q) in
  __call__ h (effectful ty f a k) {| HANDLER_STACK := []; mem := s; trace := tr |}
  = (Return (value (fst r)),
     {| HANDLER_STACK := []; mem := snd r;
        trace := tr ++ [EvProcess (hid h)] ++ call_events (fst p)
                    ++ [EvPostprocess (hid h)] |}).
Proof.
  intros p q r. unfold __call__. apply with_effectful_from_empty_stack.
Qed.

(** X3. [default_handler] installs its handler only when the stack is
    empty and the wrapped function is not itself a handler. On an empty
    stack an effectful operation wrapped by it goes through the two hooks
    of the default handler. When the wrapped function is a handler [h2],
    the default handler is not installed: on an empty stack the operation
    goes through the hooks of [h2] alone. When some handler is installed
    already, the wrapper adds nothing to what the operation does. *)
Theorem default_handler_only_on_empty_stack (h h2 : Handler S) ty (f : Callable S)
    a k s tr st :
  default_handler h false (effectful ty f a k)
    {| HANDLER_STACK := []; mem := s; trace := tr |}
  = (Return (value (fst (postprocess h
                           (fst (run_fill (process h (initial_msg ty f a k) s)))
                           (snd (run_fill (process h (initial_msg ty f a k) s)))))),
     {| HANDLER_STACK := [];
        mem := snd (postprocess h
                      (fst (run_fill (process h (initial_msg ty f a k) s)))
                      (snd (run_fill (process h (initial_msg ty f a k) s))));
        trace := tr ++ [EvProcess (hid h)]
                    ++ call_events (fst (process h (initial_msg ty f a k) s))
                    ++ [EvPostprocess (hid h)] |}) /\
  default_handler h true (__call__ h2 (effectful ty f a k))
    {| HANDLER_STACK := []; mem := s; trace := tr |}
  = (Return (value (fst (postprocess h2
                           (fst (run_fill (process h2 (initial_msg ty f a k) s)))
                           (snd (run_fill (process h2 (initial_msg ty f a k) s)))))),
     {| HANDLER_STACK := [];
        mem := snd (postprocess h2
                      (fst (run_fill (process h2 (initial_msg ty f a k) s)))
                      (snd (run_fill (process h2 (initial_msg ty f a k) s))));
        trace := tr ++ [EvProcess (hid h2)]
                    ++ call_events (fst (process h2 (initial_msg ty f a k) s))
                    ++ [EvPostprocess (hid h2)] |}) /\
  (forall (A : Type) (body : M A),
     default_handler h true body {| HANDLER_STACK := []; mem := s; trace := tr |}
     = body {| HANDLER_STACK := []; mem := s; trace := tr |}) /\
  (st ≠ [] ->
   forall (b : bool) (A : Type) (body : M A),
     default_handler h b body {| HANDLER_STACK := st; mem := s; trace := tr |}
     = body {| HANDLER_STACK := st; mem := s; trace := tr |}).
Proof.
  assert (Htrue : forall (A : Type) (body : M A),
     default_handler h true body {| HANDLER_STACK := []; mem := s; trace := tr |}
     = body {| HANDLER_STACK := []; mem := s; trace := tr |}) by reflexivity.
  split; [|split; [|split]].
  - change (default_handler h false (effectful ty f a k)
              {| HANDLER_STACK := []; mem := s; trace := tr |})
      with (with_ h (effectful ty f a k) {| HANDLER_STACK := []; mem := s; trace := tr |}).
    apply with_effectful_from_empty_stack.
  - rewrite Htrue. unfold __call__. apply with_effectful_from_empty_stack.
  - exact Htrue.
  - intros Hst b A body. unfold default_handler, bind at 1, get_stack. cbn [HANDLER_STACK].
    destruct st; [congruence|reflexivity].
Qed.

(** Handlers whose [process] never marks an unmarked message let it go
    down the whole stack. *)
Lemma run_process_unmarked hs :
  Forall (fun h => forall m s, get_stop m = false -> get_stop (fst (process h m s)) = false) hs ->
  forall (ms : Msg S * S), get_stop (fst ms) = false ->
  get_stop (fst (run_process hs ms)) = false.
Proof.
  induction 1 as [|h hs Hh _ IH]; intros ms Hms; [exact Hms|].
  unfold run_process. cbn [fold_left]. apply IH. apply Hh. exact Hms.
Qed.

(** X4. When no handler of the stack marks the message, every handler
    sees it: [process] runs on all of them from the last pushed to the
    first, then the function fills a missing value, then [postprocess]
    runs on all of them from the first pushed to the last, and the
    message returned and the state are what these make of them. A handler
    that supplies a value does not end the pass. *)
Theorem unmarked_message_visits_every_handler st msg s tr :
  st ≠ [] ->
  get_stop msg = false ->
  Forall (fun h => forall m s, get_stop m = false -> get_stop (fst (process h m s)) = false) st ->
  apply_stack msg {| HANDLER_STACK := st; mem := s; trace := tr |}
  = (Return (fst (run_postprocess st (run_fill (run_process (rev st) (msg, s))))),
     {| HANDLER_STACK := st;
        mem := snd (run_postprocess st (run_fill (run_process (rev st) (msg, s))));
        trace := tr ++ map EvProcess (map hid (rev st))
                    ++ call_events (fst (run_process (rev st) (msg, s)))
                    ++ map EvPostprocess (map hid st) |}).
Proof.
  intros Hne Hmsg Hall.
  destruct (apply_stack_spec st msg s tr Hne) as (n & Hn & _ & Hat & Heq).
  assert (Hlen : n = length st).
  { destruct (Nat.lt_ge_cases n (length st)) as [Hlt|Hge]; [|lia].
    apply Hat in Hlt. rewrite run_process_unmarked in Hlt; [discriminate| |exact Hmsg].
    apply Forall_forall. intros h Hh. rewrite Forall_forall in Hall. apply Hall.
    apply subseteq_take in Hh. apply list_elem_of_In. apply in_rev.
    apply list_elem_of_In. exact Hh. }
  cbv zeta in Heq. rewrite Heq. subst n.
  rewrite Nat.sub_diag, skipn_O, <- length_rev, firstn_all. reflexivity.
Qed.

(** X5. Without a ["name"] keyword the two paths of [effectful] agree:
    under handlers of the base class the wrapped function is called on the
    caller's keyword arguments as they are and its result is returned, as
    on an empty stack; the label of the message then holds [None]. *)
Theorem effectful_without_name ty (f : Callable S) a (k : gmap string pyval) s tr
    (ids : list nat) :
  k !! "name"%string = None ->
  ids ≠ [] ->
  label (initial_msg ty f a k) = {| term_type := ty; name := VNone |} /\
  effectful ty f a k {| HANDLER_STACK := map base_Handler ids; mem := s; trace := tr |}
  = (Return (fst (call f a k s)),
     {| HANDLER_STACK := map base_Handler ids; mem := snd (call f a k s);
        trace := tr ++ map EvProcess (rev ids) ++ [EvCall (fid f) a k]
                    ++ map EvPostprocess ids |}) /\
  fst (effectful ty f a k {| HANDLER_STACK := map base_Handler ids; mem := s; trace := tr |})
  = fst (effectful ty f a k {| HANDLER_STACK := []; mem := s; trace := tr |}).
Proof.
  intros Hk Hids.
  assert (Hinit : initial_msg ty f a k
    = {| label := {| term_type := ty; name := VNone |}; fn := f; args := a;
         kwargs := k; value := VNone; stop := None |}).
  { unfold initial_msg, pop_name. rewrite Hk, delete_id by exact Hk. reflexivity. }
  assert (Hrun : effectful ty f a k
                   {| HANDLER_STACK := map base_Handler ids; mem := s; trace := tr |}
    = (Return (fst (call f a k s)),
       {| HANDLER_STACK := map base_Handler ids; mem := snd (call f a k s);
          trace := tr ++ map EvProcess (rev ids) ++ [EvCall (fid f) a k]
                      ++ map EvPostprocess ids |})).
  { rewrite effectful_nonempty by (destruct ids; [congruence|discriminate]).
    unfold bind at 1. rewrite Hinit.
    rewrite (apply_stack_base ids _ s tr Hids) by reflexivity.
    unfold ret, run_fill, call_events. cbn [fst snd value is_None fn args kwargs set_value].
    reflexivity. }
  split; [rewrite Hinit; reflexivity|]. split; [exact Hrun|].
  rewrite Hrun. unfold effectful, bind, get_stack, call_fn. cbn [HANDLER_STACK mem fst].
  destruct (call f a k s). reflexivity.
Qed.

(** X6. What [__exit__] does, in full: on an empty stack the subscript
    raises [IndexError]; it returns exactly when the handler is the top of
    the stack; and whenever it raises it leaves the process state as it
    was. *)
Theorem exit_outcome (self : Handler S) w :
  (HANDLER_STACK w = [] -> __exit__ self w = (Raise IndexError, w)) /\
  (forall e, fst (__exit__ self w) = Raise e -> snd (__exit__ self w) = w) /\
  (fst (__exit__ self w) = Return tt <->
   exists st top, HANDLER_STACK w = st ++ [top] /\ is_ top self = true).
Proof.
  unfold __exit__. split; [intros ->; reflexivity|]. split.
  - intros e. destruct (last (HANDLER_STACK w)) as [top|]; [|reflexivity].
    destruct (is_ top self); [discriminate|reflexivity].
  - destruct (last (HANDLER_STACK w)) as [top|] eqn:Hlast.
    + apply last_Some in Hlast as [st Hst]. destruct (is_ top self) eqn:His.
      * split; [|reflexivity]. intros _. exists st, top. auto.
      * split; [discriminate|]. intros (st' & top' & Hst' & His').
        rewrite Hst in Hst'. apply app_inj_tail in Hst' as [_ <-]. congruence.
    + split; [discriminate|]. intros (st' & top' & Hst' & _).
      apply last_None in Hlast. rewrite Hlast in Hst'. destruct st'; discriminate.
Qed.

(** X7. Leaving scopes out of order is caught at the first exit: after
    handlers have been entered one after the other, leaving the one that
    was entered first while a different one is on top raises the assertion
    and every handler stays on the stack. *)
Theorem exit_out_of_order (h h' : Handler S) (mid rest : list (Handler S)) st s tr :
  is_ h' h = false ->
  bind (enter_all (h :: mid ++ [h'])) (fun _ => exit_all (h :: rest))
    {| HANDLER_STACK := st; mem := s; trace := tr |}
  = (Raise (AssertionError ""),
     {| HANDLER_STACK := st ++ h :: mid ++ [h']; mem := s; trace := tr |}).
Proof.
  intros Hnot. unfold bind at 1. rewrite enter_all_spec. cbn [exit_all].
  unfold bind, __exit__. cbn [HANDLER_STACK].
  replace (st ++ h :: mid ++ [h']) with ((st ++ h :: mid) ++ [h'])
    by (rewrite <- app_assoc; reflexivity).
  rewrite last_snoc, Hnot. reflexivity.
Qed.

End ScopeProps.

(** ** Registrations and overrides *)

Section RegistryMore.

Import handlers.
Context {K : Type} `{Countable K} {F : Type}.
Implicit Types (cls : OpRegistry K F) (tys : list K) (k : K) (fn : F).

(** A registration of kinds that are new and all different goes through
    and installs the function for each of them, and for nothing else. *)
Lemma register_all_fresh post tys : forall fn cls,
  NoDup tys ->
  (forall k, k ∈ tys -> k ∉ dom (mapping post cls)) ->
  exists cls',
    register post tys fn cls = (Return fn, cls') /\
    (forall k, mapping post cls' !! k
               = if decide (k ∈ tys) then Some fn else mapping post cls !! k) /\
    mapping (negb post) cls' = mapping (negb post) cls.
Proof.
  induction tys as [|k0 tys IH]; intros fn cls Hnd Hfresh.
  - exists cls. split; [reflexivity|]. split; [|reflexivity].
    intros k. rewrite decide_False; [reflexivity|apply not_elem_of_nil].
  - apply NoDup_cons in Hnd as [Hk0 Hnd]. rewrite register_cons.
    rewrite decide_False by (apply Hfresh; left).
    destruct (IH fn (put post k0 fn cls) Hnd) as (cls' & Hreg & Hmap & Hother).
    { intros k Hk. rewrite mapping_put, dom_insert_L.
      intros Hin. apply elem_of_union in Hin as [Hin|Hin].
      - apply elem_of_singleton in Hin. subst k. contradiction.
      - refine (Hfresh k _ Hin). right. exact Hk. }
    exists cls'. split; [exact Hreg|]. split.
    + intros k. rewrite Hmap, mapping_put. destruct (decide (k = k0)) as [->|Hne].
      * rewrite decide_False by exact Hk0. rewrite decide_True by left.
        apply lookup_insert_eq.
      * rewrite lookup_insert_ne by congruence.
        destruct (decide (k ∈ tys)) as [Hin|Hnin].
        -- rewrite decide_True by (right; exact Hin). reflexivity.
        -- rewrite decide_False; [reflexivity|].
           intros Hin. apply elem_of_cons in Hin as [Hin|Hin]; contradiction.
    + rewrite Hother. apply mapping_put_other.
Qed.

(** X8. A registration of several kinds under one function goes through
    when the kinds are new to the mapping and all different; afterwards
    each of them has the function, every other kind has what it had, and
    the other mapping is as it was. *)
Theorem register_installs_each_kind (post : bool) tys fn cls :
  NoDup tys ->
  (forall k, k ∈ tys -> k ∉ dom (mapping post cls)) ->
  exists cls',
    register post tys fn cls = (Return fn, cls') /\
    (forall k, k ∈ tys -> mapping post cls' !! k = Some fn) /\
    (forall k, k ∉ tys -> mapping post cls' !! k = mapping post cls !! k) /\
    mapping (negb post) cls' = mapping (negb post) cls.
Proof.
  intros Hnd Hfresh.
  destruct (register_all_fresh post tys fn cls Hnd Hfresh) as (cls' & Hreg & Hmap & Hother).
  exists cls'. split; [exact Hreg|]. split; [|split; [|exact Hother]].
  - intros k Hk. rewrite Hmap, decide_True by exact Hk. reflexivity.
  - intros k Hk. rewrite Hmap, decide_False by exact Hk. reflexivity.
Qed.

Lemma register_app post pre : forall rest fn cls cls1,
  register post pre fn cls = (Return fn, cls1) ->
  register post (pre ++ rest) fn cls = register post rest fn cls1.
Proof.
  induction pre as [|k0 pre IH]; intros rest fn cls cls1 Hreg.
  - cbn in Hreg. injection Hreg as <-. reflexivity.
  - cbn [app]. rewrite register_cons in *. case_decide; [discriminate|].
    apply IH. exact Hreg.
Qed.

(** X9. A registration that fails does not undo what it has done: when a
    call names new kinds and then a kind that is taken (by the mapping or
    by the call itself), it raises at that kind, and the kinds before it
    stay registered with the function. *)
Theorem register_failure_keeps_earlier_kinds (post : bool) pre k rest fn cls :
  NoDup pre ->
  (forall k', k' ∈ pre -> k' ∉ dom (mapping post cls)) ->
  k ∈ dom (mapping post cls) \/ k ∈ pre ->
  exists cls',
    register post (pre ++ k :: rest) fn cls
    = (Raise (AssertionError "cannot override"), cls') /\
    (forall k', k' ∈ pre -> mapping post cls' !! k' = Some fn) /\
    (forall k', k' ∉ pre -> mapping post cls' !! k' = mapping post cls !! k').
Proof.
  intros Hnd Hfresh Htaken.
  destruct (register_all_fresh post pre fn cls Hnd Hfresh) as (cls1 & Hreg & Hmap & _).
  exists cls1. split.
  - rewrite (register_app post pre (k :: rest) fn cls cls1 Hreg), register_cons.
    rewrite decide_True; [reflexivity|].
    apply elem_of_dom. rewrite Hmap. destruct (decide (k ∈ pre)) as [Hin|Hnin]; [eauto|].
    apply elem_of_dom. destruct Htaken; [assumption|contradiction].
  - split.
    + intros k' Hk'. rewrite Hmap, decide_True by exact Hk'. reflexivity.
    + intros k' Hk'. rewrite Hmap, decide_False by exact Hk'. reflexivity.
Qed.

(** A registration writes only under the kinds it is given, however it
    ends. *)
Lemma register_other_keys post tys : forall fn cls (b : bool) k,
  k ∉ tys ->
  mapping b (snd (register post tys fn cls)) !! k = mapping b cls !! k.
Proof.
  induction tys as [|k0 tys IH]; intros fn cls b k Hk; [reflexivity|].
  rewrite register_cons. apply not_elem_of_cons in Hk as [Hne Hk].
  case_decide; [reflexivity|].
  rewrite IH by exact Hk.
  destruct post, b; cbn [put mapping _terms_processed _terms_postprocessed];
    try reflexivity; apply lookup_insert_ne; congruence.
Qed.

End RegistryMore.

Section OverrideProps.

Import handlers.
Context {S : Type}.

(** X10. [OpRegistry.process] looks the label of the message up as it
    is. A function stored for [process] under a key equal to that label,
    which is a label instance of the same name and not a class, takes the
    place of the wrapped function when it gives a value: [effectful]
    returns that value and the wrapped function is not called. When the
    stored function gives [None] the wrapped function is called after it,
    on the state it has left, and its result is returned. *)
Theorem process_override_replaces_function (id : nat) (cls : OpRegistry Key (Callable S))
    (g : Callable S) ty (f : Callable S) a k s tr :
  let m0 := initial_msg ty f a k in
  let key := Label_as_key (label m0) in
  key ∉ dom (_terms_processed cls) ->
  _terms_postprocessed cls !! key = None ->
  let cls1 := snd (register false [key] g cls) in
  let st := [OpRegistry_handler id cls1] in
  let r := call g (args m0) (kwargs m0) s in
  effectful ty f a k {| HANDLER_STACK := st; mem := s; trace := tr |}
  = if is_None (fst r)
    then (Return (fst (call f (args m0) (kwargs m0) (snd r))),
          {| HANDLER_STACK := st; mem := snd (call f (args m0) (kwargs m0) (snd r));
             trace := tr ++ [EvProcess id; EvCall (fid f) (args m0) (kwargs m0);
                             EvPostprocess id] |})
    else (Return (fst r),
          {| HANDLER_STACK := st; mem := snd r;
             trace := tr ++ [EvProcess id; EvPostprocess id] |}).
Proof.
  intros m0 key Hfresh Hpost cls1 st r.
  assert (Hcls1 : cls1 = put false key g cls).
  { unfold cls1. rewrite register_fresh by exact Hfresh. reflexivity. }
  assert (Hm0 : fn m0 = f /\ value m0 = VNone).
  { unfold m0, initial_msg, pop_name. cbn. auto. }
  destruct Hm0 as [Hfn Hval].
  set (h := OpRegistry_handler id cls1).
  assert (Hp : process h m0 s = (set_value (fst r) m0, snd r)).
  { unfold h. cbn [OpRegistry_handler process]. unfold OpRegistry_process. fold key.
    rewrite Hcls1. cbn [put _terms_processed]. rewrite lookup_insert_eq. reflexivity. }
  assert (Hq : forall m s', label m = label m0 -> postprocess h m s' = (m, s')).
  { intros m s' Hl. unfold h. cbn [OpRegistry_handler postprocess].
    unfold OpRegistry_postprocess. rewrite Hl. fold key. rewrite Hcls1.
    cbn [put _terms_postprocessed]. rewrite Hpost. reflexivity. }
  unfold st. fold h. rewrite effectful_nonempty by discriminate. unfold bind.
  rewrite apply_stack_singleton. fold m0.
  unfold run_process, run_postprocess. cbn [fold_left fst snd]. rewrite Hp.
  unfold run_fill, call_events. cbn [fst snd value set_value fn args kwargs].
  destruct (is_None (fst r)) eqn:Hnone; cbn [fst snd]; rewrite Hq by reflexivity;
    rewrite ?Hfn; reflexivity.
Qed.

(** X11. [OpRegistry.postprocess] looks the label of the message up as
    it is. A function stored for [postprocess] under a key equal to that
    label, which is a label instance of the same name and not a class,
    has the last word: the wrapped function is called all the same, then
    the stored function is called on the same arguments, and [effectful]
    returns its result, whatever the wrapped function has returned. *)
Theorem postprocess_override_has_last_word (id : nat) (cls : OpRegistry Key (Callable S))
    (g : Callable S) ty (f : Callable S) a k s tr :
  let m0 := initial_msg ty f a k in
  let key := Label_as_key (label m0) in
  key ∉ dom (_terms_postprocessed cls) ->
  _terms_processed cls !! key = None ->
  let cls1 := snd (register true [key] g cls) in
  let st := [OpRegistry_handler id cls1] in
  let after_f := snd (call f (args m0) (kwargs m0) s) in
  effectful ty f a k {| HANDLER_STACK := st; mem := s; trace := tr |}
  = (Return (fst (call g (args m0) (kwargs m0) after_f)),
     {| HANDLER_STACK := st; mem := snd (call g (args m0) (kwargs m0) after_f);
        trace := tr ++ [EvProcess id; EvCall (fid f) (args m0) (kwargs m0);
                        EvPostprocess id] |}).
Proof.
  intros m0 key Hfresh Hproc cls1 st after_f.
  assert (Hcls1 : cls1 = put true key g cls).
  { unfold cls1. rewrite register_fresh by exact Hfresh. reflexivity. }
  assert (Hm0 : fn m0 = f /\ value m0 = VNone).
  { unfold m0, initial_msg, pop_name. cbn. auto. }
  destruct Hm0 as [Hfn Hval].
  set (h := OpRegistry_handler id cls1).
  assert (Hp : process h m0 s = (m0, s)).
  { unfold h. cbn [OpRegistry_handler process]. unfold OpRegistry_process. fold key.
    rewrite Hcls1. cbn [put _terms_processed]. rewrite Hproc. reflexivity. }
  assert (Hq : forall m s', label m = label m0 ->
            postprocess h m s'
            = (set_value (fst (call g (args m) (kwargs m) s')) m,
               snd (call g (args m) (kwargs m) s'))).
  { intros m s' Hl. unfold h. cbn [OpRegistry_handler postprocess].
    unfold OpRegistry_postprocess. rewrite Hl. fold key. rewrite Hcls1.
    cbn [put _terms_postprocessed]. rewrite lookup_insert_eq. reflexivity. }
  unfold st. fold h. rewrite effectful_nonempty by discriminate. unfold bind.
  rewrite apply_stack_singleton. fold m0.
  unfold run_process, run_postprocess. cbn [fold_left fst snd]. rewrite Hp.
  unfold run_fill, call_events. cbn [fst snd]. rewrite Hval. cbn [is_None fst snd].
  rewrite Hq by reflexivity. cbn [fst snd value set_value args kwargs].
  rewrite Hfn. reflexivity.
Qed.

(** X19. Registering a function under operation classes, which is what
    the parameter [term_types] of [register] asks for, overrides nothing:
    the hooks look up the label instance, and a class is equal to no
    instance. Whatever classes are registered, for either hook and
    whether the registration goes through or raises, an effectful
    operation under the registry handler calls the wrapped function and
    returns its result, as long as no key of the two dictionaries is
    equal to the message's label. *)
Theorem class_registration_never_fires (id : nat) (cls : OpRegistry Key (Callable S))
    (post : bool) (classes : list string) (g : Callable S) ty (f : Callable S) a k s tr :
  let m0 := initial_msg ty f a k in
  _terms_processed cls !! Label_as_key (label m0) = None ->
  _terms_postprocessed cls !! Label_as_key (label m0) = None ->
  let cls1 := snd (register post (map KClass classes) g cls) in
  let st := [OpRegistry_handler id cls1] in
  effectful ty f a k {| HANDLER_STACK := st; mem := s; trace := tr |}
  = (Return (fst (call f (args m0) (kwargs m0) s)),
     {| HANDLER_STACK := st; mem := snd (call f (args m0) (kwargs m0) s);
        trace := tr ++ [EvProcess id; EvCall (fid f) (args m0) (kwargs m0);
                        EvPostprocess id] |}).
Proof.
  intros m0 Hproc Hpost cls1 st.
  assert (Hnot : Label_as_key (label m0) ∉ map KClass classes).
  { intros Hin. apply list_elem_of_In, in_map_iff in Hin as (c & Hc & _). discriminate. }
  assert (H1 : _terms_processed cls1 !! Label_as_key (label m0) = None).
  { rewrite <- Hproc. exact (register_other_keys post _ g cls false _ Hnot). }
  assert (H2 : _terms_postprocessed cls1 !! Label_as_key (label m0) = None).
  { rewrite <- Hpost. exact (register_other_keys post _ g cls true _ Hnot). }
  assert (Hm0 : fn m0 = f /\ value m0 = VNone).
  { unfold m0, initial_msg, pop_name. cbn. auto. }
  destruct Hm0 as [Hfn Hval].
  set (h := OpRegistry_handler id cls1).
  assert (Hp : process h m0 s = (m0, s)).
  { unfold h. cbn [OpRegistry_handler process]. unfold OpRegistry_process.
    rewrite H1. reflexivity. }
  assert (Hq : forall m s', label m = label m0 -> postprocess h m s' = (m, s')).
  { intros m s' Hl. unfold h. cbn [OpRegistry_handler postprocess].
    unfold OpRegistry_postprocess. rewrite Hl, H2. reflexivity. }
  unfold st. fold h. rewrite effectful_nonempty by discriminate. unfold bind.
  rewrite apply_stack_singleton. fold m0.
  unfold run_process, run_postprocess. cbn [fold_left fst snd]. rewrite Hp.
  unfold run_fill, call_events. cbn [fst snd]. rewrite Hval. cbn [is_None fst snd].
  rewrite Hq by reflexivity. cbn [fst snd value set_value args kwargs].
  rewrite Hfn. reflexivity.
Qed.

End OverrideProps.

(** ** The SLDS model: construction and short data *)

Section SLDSMore.

Import eeg_funsor_slds.

Lemma s_in_matrix_and_mvn (ev : bool) :
  "s"%string ∈ inputs (matrix_and_mvn_to_funsor (if ev then ["s"%string] else []) "x" "y")
  <-> ev = true.
Proof.
  unfold matrix_and_mvn_to_funsor. cbn [inputs]. destruct ev.
  - split; [reflexivity|]. intros _. set_solver.
  - split; [|discriminate]. intros Hin. exfalso.
    assert ("s"%string ≠ "x"%string) by discriminate.
    assert ("s"%string ≠ "y"%string) by discriminate. set_solver.
Qed.

(** X12. [SLDS.__init__] builds an object exactly when the lag is
    positive and one of the four [fine_] flags is set. In an object it
    builds, the lag is at least 1 and the discrete state ["s"] is an input
    of the transition term or of the observation term; with no flag set
    neither term would depend on it. *)
Theorem init_couples_the_dynamics (K h o : nat) (ftn fom fon ftm : bool) (lag : Z) :
  ((exists self, SLDS_init K h o ftn fom fon ftm lag = Return self) <->
   (0 < lag /\ (ftn || fom || fon || ftm) = true)) /\
  (forall self, SLDS_init K h o ftn fom fon ftm lag = Return self ->
     1 <= moment_matching_lag self /\
     ("s"%string ∈ inputs (x_trans_dist self) \/ "s"%string ∈ inputs (y_dist self))) /\
  (forall self : SLDS,
     (fine_transition_noise self || fine_observation_matrix self
      || fine_observation_noise self || fine_transition_matrix self) = false ->
     ("s"%string ∉ inputs (x_trans_dist self)) /\ ("s"%string ∉ inputs (y_dist self))).
Proof.
  split; [|split].
  - unfold SLDS_init. destruct (Z.gtb_spec lag 0) as [Hpos|Hneg].
    + destruct (ftn || fom || fon || ftm) eqn:Hflags.
      * split; [intros _; split; [lia|reflexivity]|intros _; eauto].
      * split; [intros [self Hs]; discriminate|intros [_ Hf]; discriminate].
    + split; [intros [self Hs]; discriminate|intros [Hl _]; lia].
  - intros self. unfold SLDS_init. destruct (Z.gtb_spec lag 0) as [Hpos|Hneg]; [|discriminate].
    destruct (ftn || fom || fon || ftm) eqn:Hflags; [|discriminate].
    intros E. injection E as <-. cbn [moment_matching_lag]. split; [lia|].
    unfold x_trans_dist, y_dist.
    cbn [fine_transition_matrix fine_transition_noise fine_observation_matrix
         fine_observation_noise].
    rewrite !s_in_matrix_and_mvn. destruct ftn, fom, fon, ftm; cbn in *; auto; discriminate.
  - intros self Hflags. unfold x_trans_dist, y_dist. rewrite !s_in_matrix_and_mvn.
    destruct (fine_transition_noise self), (fine_observation_matrix self),
      (fine_observation_noise self), (fine_transition_matrix self);
      cbn in *; try discriminate; split; discriminate.
Qed.

(** A reduction changes neither dictionary. *)
Lemma reduce_step_vars (k : Z) (l l' : Locals) :
  reduce_step k l = Return l' -> s_vars l' = s_vars l /\ x_vars l' = x_vars l.
Proof.
  unfold reduce_step. unfold mbind, Outcome_bind.
  repeat case_match; try discriminate. intros E. injection E as <-. auto.
Qed.

(** A round of the loop that goes through adds the key [t] to both
    dictionaries and nothing else. *)
Lemma log_prob_body_vars {Row : Type} (self : SLDS) (t : Z) (y : Row) (l l' : Locals) :
  log_prob_body self t y l = Return l' ->
  s_vars l' = <[t := Variable_ (s_ t)]> (s_vars l) /\
  x_vars l' = <[t := Variable_ (x_ t)]> (x_vars l).
Proof.
  unfold log_prob_body. unfold mbind, Outcome_bind. cbv zeta.
  repeat case_match; try discriminate;
    repeat match goal with
           | H : Return _ = Return _ |- _ => injection H as <-
           | H : reduce_step _ _ = Return _ |- _ => apply reduce_step_vars in H as [? ?]
           end;
    intros E; injection E as <-; cbn [s_vars x_vars set_log_prob] in *; split; congruence.
Qed.

(** The loop adds no key below the ones it starts with. *)
Lemma log_prob_loop_keys {Row : Type} (self : SLDS) (data : list Row) :
  forall (k : nat) (l l' : Locals) (z : Z),
  log_prob_loop self (enumerate_from k data) l = Return l' ->
  z < 0 ->
  s_vars l' !! z = s_vars l !! z /\ x_vars l' !! z = x_vars l !! z.
Proof.
  induction data as [|y data IH]; intros k l l' z Hloop Hz.
  - cbn in Hloop. injection Hloop as <-. auto.
  - change (enumerate_from k (y :: data))
      with ((k, y) :: enumerate_from (Datatypes.S k) data) in Hloop.
    cbn [log_prob_loop] in Hloop.
    destruct (log_prob_body self (Z.of_nat k) y l) as [l1|e] eqn:Hbody; [|discriminate].
    cbn [mbind Outcome_bind] in Hloop.
    destruct (IH _ _ _ z Hloop Hz) as [Hs Hx].
    apply log_prob_body_vars in Hbody as [Hs1 Hx1].
    rewrite Hs, Hx, Hs1, Hx1, !lookup_insert_ne by lia. auto.
Qed.

(** X13. With fewer time steps than the lag, [log_prob] never returns:
    the final loop starts below step 0. One step short, it reads
    [s_vars[-1]], the initial tensor, which has no [name]; shorter still,
    it reads a key that [s_vars] does not have. *)
Theorem log_prob_short_data {Row : Type} (self : SLDS) (data : list Row) :
  1 <= moment_matching_lag self ->
  Z.of_nat (length data) < moment_matching_lag self ->
  log_prob self data
  = Raise (if Z.of_nat (length data) =? moment_matching_lag self - 1
           then AttributeError "name" else KeyError).
Proof.
  intros HL HT.
  destruct (log_prob_loop_spec self data HL 0 log_prob_init (log_prob_init_inv self HL))
    as (l1 & Hloop & (Hm1 & _ & _) & _ & _).
  unfold log_prob, enumerate. rewrite Hloop. cbn [mbind Outcome_bind]. unfold range.
  destruct (Z.to_nat (moment_matching_lag self)) as [|n] eqn:Hn; [lia|].
  cbn [seq final_loop]. unfold reduce_step, getitem.
  replace (Z.of_nat (length data) - moment_matching_lag self + Z.of_nat 0)
    with (Z.of_nat (length data) - moment_matching_lag self) by lia.
  destruct (Z.eqb_spec (Z.of_nat (length data)) (moment_matching_lag self - 1)) as [E|E].
  - replace (Z.of_nat (length data) - moment_matching_lag self) with (-1) by lia.
    rewrite Hm1. reflexivity.
  - destruct (log_prob_loop_keys self data 0 log_prob_init l1
                (Z.of_nat (length data) - moment_matching_lag self) Hloop ltac:(lia))
      as [Hs _].
    rewrite Hs. unfold log_prob_init. cbn [s_vars].
    rewrite lookup_singleton_ne by lia. reflexivity.
Qed.

Lemma size_window (a b : nat) : (a <= b)%nat -> size (window a b) = (2 * (b - a))%nat.
Proof.
  induction 1 as [|b Hab IH].
  - rewrite window_empty, Nat.sub_diag. reflexivity.
  - rewrite window_extend by exact Hab. rewrite size_union.
    + rewrite IH, size_union, !size_singleton by
        (apply disjoint_singleton_l; rewrite elem_of_singleton; apply s_ne_x).
      lia.
    + intros n Hn Hlast. apply elem_of_window in Hn as (t & Ht & Hn).
      apply elem_of_union in Hlast. rewrite !elem_of_singleton in Hlast.
      destruct Hlast as [->| ->]; destruct Hn as [E|E].
      * apply s_inj in E. lia.
      * exact (s_ne_x _ _ E).
      * symmetry in E. exact (s_ne_x _ _ E).
      * apply x_inj in E. lia.
Qed.

(** X14. However long the data, the term that the loop of [log_prob]
    accumulates keeps the names of the last [moment_matching_lag] steps
    only (of all the steps, while there are fewer): after [T] rounds it has
    [2 * min(T, lag)] free names. *)
Theorem log_prob_keeps_lag_steps {Row : Type} (self : SLDS) (data : list Row) :
  1 <= moment_matching_lag self ->
  let T := length data in
  exists l,
    log_prob_loop self (enumerate data) log_prob_init = Return l /\
    inputs (log_prob_term l) = window (oldest self T) T /\
    size (inputs (log_prob_term l))
    = (2 * Nat.min T (Z.to_nat (moment_matching_lag self)))%nat.
Proof.
  intros HL T.
  destruct (log_prob_loop_spec self data HL 0 log_prob_init (log_prob_init_inv self HL))
    as (l1 & Hloop & _ & Hin & _).
  cbn [Nat.add] in Hin. fold T in Hin.
  exists l1. split; [exact Hloop|]. split; [exact Hin|].
  rewrite Hin, size_window by (unfold oldest; lia). unfold oldest. lia.
Qed.

End SLDSMore.

(** ** filter_and_predict on short data *)

Section FilterShort.

Import eeg_funsor_slds.

(** X15. On fewer than two time steps [filter_and_predict] raises and
    returns nothing: there is no predictive distribution, and
    [torch.stack] refuses the empty list; on no data at all with
    [smoothing], [filtering_dists[-1]] fails before that. *)
Theorem filter_and_predict_needs_two_steps {Row : Type} (self : SLDS) (data : list Row)
    (smoothing : bool) :
  (length data < 2)%nat ->
  filter_and_predict self data smoothing
  = Raise (if smoothing && Nat.eqb (length data) 0
           then IndexError
           else RuntimeError "stack expects a non-empty TensorList").
Proof.
  intros Hlen. destruct data as [|y [|y' data]]; [| |cbn in Hlen; lia];
    destruct smoothing; reflexivity.
Qed.

End FilterShort.

(** ** FunsorDistribution._sample_delta and mode *)

Section SampleDeltaProps.

Import eeg_funsor_slds distribution.

Lemma enumerate_from_snoc {A} (l : list A) (x : A) (i0 : nat) :
  enumerate_from i0 (l ++ [x]) = enumerate_from i0 l ++ [((i0 + length l)%nat, x)].
Proof.
  revert i0. induction l as [|y l IH]; intros i0.
  - cbn. rewrite Nat.add_0_r. reflexivity.
  - change (enumerate_from i0 ((y :: l) ++ [x]))
      with ((i0, y) :: enumerate_from (Datatypes.S i0) (l ++ [x])).
    rewrite IH. cbn [length].
    replace (Datatypes.S i0 + length l)%nat with (i0 + Datatypes.S (length l))%nat by lia.
    reflexivity.
Qed.

Lemma odict_set_fresh (d : list (string * nat)) (k : string) (v : nat) :
  k ∉ map fst d -> odict_set d k v = d ++ [(k, v)].
Proof.
  induction d as [|[k' v'] d IH]; intros Hk; [reflexivity|].
  cbn [odict_set]. cbn [map fst] in Hk. apply not_elem_of_cons in Hk as [Hne Hk].
  destruct (String.eqb_spec k' k) as [E|_]; [congruence|].
  rewrite IH by exact Hk. reflexivity.
Qed.

Lemma named_sizes_keys (name : Z -> string) (len : nat) (pre : list nat) (k : string) :
  k ∈ map fst (named_sizes name len (enumerate pre)) ->
  exists i : nat, (i < length pre)%nat /\ k = name (Z.of_nat i - Z.of_nat len).
Proof.
  unfold named_sizes. rewrite map_map. cbn [fst]. intros Hk.
  apply list_elem_of_In, in_map_iff in Hk as ([i x] & <- & Hin).
  apply filter_In in Hin as [Hin _]. exists i. split; [|reflexivity].
  unfold enumerate, enumerate_from in Hin. apply in_combine_l in Hin.
  apply in_seq in Hin. lia.
Qed.

Section Table.

Variable DIM_TO_NAME : Z -> Outcome string.
Variable name : Z -> string.

Lemma sample_inputs_loop_spec (batch suf : list nat) :
  forall pre : list nat,
  let len := length (pre ++ suf ++ batch) in
  (forall d, - Z.of_nat len <= d < - Z.of_nat (length batch) ->
     DIM_TO_NAME d = Return (name d)) ->
  (forall d d', - Z.of_nat len <= d < - Z.of_nat (length batch) ->
     - Z.of_nat len <= d' < - Z.of_nat (length batch) -> name d = name d' -> d = d') ->
  sample_inputs_loop DIM_TO_NAME (pre ++ suf ++ batch)
    (map (fun i => - Z.of_nat len + Z.of_nat i) (seq (length pre) (length suf)))
    (named_sizes name len (enumerate pre))
  = Return (named_sizes name len (enumerate (pre ++ suf))).
Proof.
  induction suf as [|x suf IH]; intros pre len Htable Hinj.
  - cbn. rewrite app_nil_r. reflexivity.
  - cbn [length seq map sample_inputs_loop].
    assert (Hlen : len = (length pre + Datatypes.S (length suf) + length batch)%nat).
    { unfold len. rewrite !length_app. cbn [length]. lia. }
    assert (Hget : py_getitem (pre ++ (x :: suf) ++ batch)
                     (- Z.of_nat len + Z.of_nat (length pre)) = Return x).
    { unfold py_getitem. fold len.
      destruct (Z.ltb_spec (- Z.of_nat len + Z.of_nat (length pre)) 0) as [_|Hge]; [|lia].
      replace (- Z.of_nat len + Z.of_nat (length pre) + Z.of_nat len)
        with (Z.of_nat (length pre)) by lia.
      destruct (Z.leb_spec 0 (Z.of_nat (length pre))) as [_|Hneg]; [|lia].
      destruct (Z.ltb_spec (Z.of_nat (length pre)) (Z.of_nat len)) as [_|Hge]; [|lia].
      cbn [andb]. rewrite Nat2Z.id, lookup_app_r by lia.
      rewrite Nat.sub_diag. reflexivity. }
    rewrite Hget. cbn [mbind Outcome_bind].
    assert (Hpre : pre ++ (x :: suf) ++ batch = (pre ++ [x]) ++ suf ++ batch)
      by (rewrite <- app_assoc; reflexivity).
    assert (Hpre' : pre ++ x :: suf = (pre ++ [x]) ++ suf)
      by (rewrite <- app_assoc; reflexivity).
    specialize (IH (pre ++ [x])). cbv zeta in IH. rewrite <- Hpre in IH. fold len in IH.
    rewrite length_app in IH. cbn [length] in IH.
    replace (length pre + 1)%nat with (Datatypes.S (length pre)) in IH by lia.
    rewrite <- Hpre' in IH.
    assert (Henum : named_sizes name len (enumerate (pre ++ [x]))
                    = named_sizes name len (enumerate pre)
                      ++ (if Nat.ltb 1 x
                          then [(name (- Z.of_nat len + Z.of_nat (length pre)), x)]
                          else [])).
    { unfold enumerate. rewrite enumerate_from_snoc. unfold named_sizes.
      rewrite List.filter_app, map_app. cbn [List.filter snd fst Nat.add].
      destruct (Nat.ltb 1 x); cbn [map fst snd]; [|reflexivity].
      replace (Z.of_nat (length pre) - Z.of_nat len)
        with (- Z.of_nat len + Z.of_nat (length pre)) by lia.
      reflexivity. }
    rewrite Henum in IH. destruct (Nat.ltb 1 x) eqn:Hx.
    + rewrite Htable by lia. cbn [mbind Outcome_bind]. rewrite odict_set_fresh.
      * apply IH; assumption.
      * intros Hk. apply named_sizes_keys in Hk as (i & Hi & Hk).
        apply Hinj in Hk; lia.
    + rewrite app_nil_r in IH. apply IH; assumption.
Qed.

(** X16. [_sample_delta] names sample inputs for the sample dimensions
    only, and among them for those of a size above 1: with a non-empty
    [sample_shape] the dictionary holds, in order, one entry per such
    dimension, under the name of its position counted from the right of
    [sample_shape + batch_shape] and with its size; no batch dimension
    gets one. With an empty [sample_shape] there is no dictionary, only
    [None]. *)
Theorem sample_inputs_are_the_large_sample_dims (self : FunsorDistribution)
    (sample_shape : list nat) :
  let len := length (sample_shape ++ batch_shape self) in
  (forall d, - Z.of_nat len <= d < - Z.of_nat (length (batch_shape self)) ->
     DIM_TO_NAME d = Return (name d)) ->
  (forall d d', - Z.of_nat len <= d < - Z.of_nat (length (batch_shape self)) ->
     - Z.of_nat len <= d' < - Z.of_nat (length (batch_shape self)) ->
     name d = name d' -> d = d') ->
  sample_inputs_of DIM_TO_NAME self [] = Return None /\
  (sample_shape ≠ [] ->
   sample_inputs_of DIM_TO_NAME self sample_shape
   = Return (Some (named_sizes name len (enumerate sample_shape)))).
Proof.
  intros len Htable Hinj. split; [reflexivity|]. intros Hne.
  pose proof (sample_inputs_loop_spec (batch_shape self) sample_shape []) as Hloop.
  cbv zeta in Hloop. cbn [app length] in Hloop. fold len in Hloop.
  change (named_sizes name len (enumerate [])) with (@nil (string * nat)) in Hloop.
  specialize (Hloop Htable Hinj).
  assert (Hlen : Z.to_nat (- Z.of_nat (length (batch_shape self)) - - Z.of_nat len)
                 = length sample_shape).
  { unfold len. rewrite length_app. lia. }
  unfold sample_inputs_of. destruct sample_shape as [|x rest]; [congruence|].
  fold len. unfold range2. rewrite Hlen, Hloop. reflexivity.
Qed.

End Table.

Lemma py_getitem_0 {A} (t : A) (rest : list A) : py_getitem (t :: rest) 0 = Return t.
Proof.
  unfold py_getitem. cbn [length Z.ltb Z.compare Z.leb andb].
  destruct (Z.ltb_spec 0 (Z.of_nat (Datatypes.S (length rest)))) as [_|Hge]; [|lia].
  reflexivity.
Qed.

(** What [_sample_delta] makes of a [Contraction] with a first term. *)
Lemma sample_delta_of_contraction (t : FTerm) (rest : list FTerm) :
  sample_delta_of (TContraction (t :: rest))
  = if is_Delta t
    then match List.filter is_Delta rest with
         | [] => Return t
         | _ :: _ => Raise (AssertionError "")
         end
    else Raise (AssertionError "").
Proof.
  unfold sample_delta_of. cbn [List.filter]. destruct (is_Delta t) eqn:Ht.
  - cbn [length]. destruct (List.filter is_Delta rest) as [|u us]; cbn [length Nat.eqb].
    + rewrite py_getitem_0. cbn [mbind Outcome_bind]. rewrite Ht. reflexivity.
    + destruct (length us); reflexivity.
  - destruct (Nat.eqb (length (List.filter is_Delta rest)) 1).
    + rewrite py_getitem_0. cbn [mbind Outcome_bind]. rewrite Ht. reflexivity.
    + reflexivity.
Qed.

(** X17. [_sample_delta] returns a term exactly in two cases: the sample
    is a [Delta], which is returned, or it is a [Contraction] whose first
    term is a [Delta] and which has no other [Delta] among its terms, and
    that first term is returned. A [Contraction] whose first term is not a
    [Delta] fails an assertion, also when it holds exactly one [Delta]
    further on. *)
Theorem sample_delta_takes_the_first_term (delta d : FTerm) :
  (sample_delta_of delta = Return d <->
   is_Delta d = true /\
   (delta = d \/
    exists rest, delta = TContraction (d :: rest) /\ List.filter is_Delta rest = [])) /\
  (forall t rest, is_Delta t = false ->
     sample_delta_of (TContraction (t :: rest)) = Raise (AssertionError "")).
Proof.
  split.
  - destruct delta as [id|terms|id].
    + cbn. split.
      * intros E. injection E as <-. auto.
      * intros [Hd [<-|(rest & E & _)]]; [reflexivity|discriminate].
    + destruct terms as [|t rest].
      * cbn. split; [discriminate|].
        intros [Hd [<-|(rest & E & _)]]; discriminate.
      * rewrite sample_delta_of_contraction. split.
        -- destruct (is_Delta t) eqn:Ht; [|discriminate].
           destruct (List.filter is_Delta rest) eqn:Hrest; [|discriminate].
           intros E. injection E as <-. split; [exact Ht|]. right. eauto.
        -- intros [Hd [<-|(rest' & E & Hf)]]; [discriminate|].
           injection E as -> ->. rewrite Hd, Hf. reflexivity.
    + cbn. split; [discriminate|].
      intros [Hd [<-|(rest & E & _)]]; discriminate.
  - intros t rest Ht. rewrite sample_delta_of_contraction, Ht. reflexivity.
Qed.

Lemma in_mode_locals (x : string) :
  x ∈ ["self"; "tape"; "root"; "targets"; "argmax"; "delta"; "ndims"; "value"]%string ->
  x ∈ mode_locals.
Proof. intros Hx. unfold mode_locals. rewrite elem_of_list_to_set. exact Hx. Qed.

Lemma load_global_bound (builtins : gset string) (x : string) (bound : gset string) :
  x ∉ mode_locals -> x ∈ builtins -> load builtins x bound = (Return tt, bound).
Proof.
  intros Hl Hb. unfold load. rewrite decide_False by exact Hl.
  rewrite decide_True by (apply elem_of_union; right; exact Hb). reflexivity.
Qed.

Lemma load_local_bound (builtins : gset string) (x : string) (bound : gset string) :
  x ∈ mode_locals -> x ∈ bound -> load builtins x bound = (Return tt, bound).
Proof.
  intros Hl Hb. unfold load. rewrite decide_True by exact Hl.
  rewrite decide_True by exact Hb. reflexivity.
Qed.

Lemma load_local_unbound (builtins : gset string) (x : string) (bound : gset string) :
  x ∈ mode_locals -> x ∉ bound -> load builtins x bound = (Raise (UnboundLocalError x), bound).
Proof.
  intros Hl Hb. unfold load. rewrite decide_True by exact Hl.
  rewrite decide_False by exact Hb. reflexivity.
Qed.

(** X18. Binding the two names that [mode] misses at module level would not
    repair it: with [AdjointTape] and [ops] resolvable, the body goes as
    far as the test [isinstance(delta, Contraction)] and fails there,
    because [delta] is a local name that is read before any assignment. *)
Theorem mode_reads_delta_before_assignment (builtins : gset string)
    (self : FunsorDistribution) :
  "AdjointTape"%string ∈ builtins ->
  "ops"%string ∈ builtins ->
  "isinstance"%string ∈ builtins ->
  mode builtins self = Raise (UnboundLocalError "delta").
Proof.
  intros Hat Hops Hisin.
  assert (Hnl : forall x, x ∈ ["AdjointTape"; "ops"; "isinstance"]%string -> x ∉ mode_locals).
  { intros x Hx. unfold mode_locals. rewrite elem_of_list_to_set. intros Hin.
    repeat (apply elem_of_cons in Hx as [->|Hx];
            [repeat (apply elem_of_cons in Hin as [Hin|Hin]; [discriminate|]);
             apply elem_of_nil in Hin; contradiction|]).
    apply elem_of_nil in Hx. contradiction. }
  unfold mode, mode_body, fseq. cbn [loads]. unfold fbind, fret, store.
  repeat first
    [ rewrite (load_global_bound builtins) by (first [assumption | apply Hnl; set_solver])
    | rewrite (load_local_bound builtins) by (first [apply in_mode_locals; set_solver | set_solver]) ].
  rewrite (load_local_unbound builtins "delta"); [reflexivity|apply in_mode_locals; set_solver|].
  intros Hin. repeat (apply elem_of_union in Hin as [Hin|Hin];
                      [apply elem_of_singleton in Hin; discriminate|]).
  apply elem_of_singleton in Hin. discriminate.
Qed.

End SampleDeltaProps.

(** ** The further properties on sample objects *)

Section FurtherSamples.

Import handlers eeg_funsor_slds distribution.

Lemma with_releases_handler_witness :
  HANDLER_STACK (snd (effectful "sample" seven [VInt 1] ∅
                        {| HANDLER_STACK := [] ++ [base_Handler 1]; mem := tt; trace := [] |}))
  = [] ++ [base_Handler 1] /\
  with_ (base_Handler 1) (effectful "sample" seven [VInt 1] ∅)
    {| HANDLER_STACK := []; mem := tt; trace := [] |}
  = (Return (VInt 7),
     {| HANDLER_STACK := []; mem := tt;
        trace := [EvProcess 1; EvCall 0 [VInt 1] ∅; EvPostprocess 1] |}).
Proof.
  assert (H : HANDLER_STACK (snd (effectful "sample" seven [VInt 1] ∅
                {| HANDLER_STACK := [] ++ [base_Handler 1]; mem := tt; trace := [] |}))
              = [] ++ [base_Handler 1]) by reflexivity.
  split; [exact H|].
  exact (with_releases_handler (base_Handler 1) (effectful "sample" seven [VInt 1] ∅)
           [] tt [] H).
Defined.

Lemma unmarked_message_visits_every_handler_witness :
  [base_Handler 1; supplier 2] ≠ [] /\
  get_stop sample_msg = false /\
  Forall (fun h : Handler unit =>
            forall m s, get_stop m = false -> get_stop (fst (process h m s)) = false)
    [base_Handler 1; supplier 2] /\
  apply_stack sample_msg
    {| HANDLER_STACK := [base_Handler 1; supplier 2]; mem := tt; trace := [] |}
  = (Return (set_value (VInt 5) sample_msg),
     {| HANDLER_STACK := [base_Handler 1; supplier 2]; mem := tt;
        trace := [EvProcess 2; EvProcess 1; EvPostprocess 1; EvPostprocess 2] |}).
Proof.
  assert (H1 : [@base_Handler unit 1; supplier 2] ≠ []) by discriminate.
  assert (H2 : get_stop sample_msg = false) by reflexivity.
  assert (H3 : Forall (fun h : Handler unit =>
            forall m s, get_stop m = false -> get_stop (fst (process h m s)) = false)
            [base_Handler 1; supplier 2]).
  { repeat constructor; intros m s Hm; exact Hm. }
  split; [exact H1|]. split; [exact H2|]. split; [exact H3|].
  exact (unmarked_message_visits_every_handler [base_Handler 1; supplier 2] sample_msg
           tt [] H1 H2 H3).
Defined.

Lemma effectful_without_name_witness :
  ({[ "scale"%string := VInt 2 ]} : gmap string pyval) !! "name"%string = None /\
  [1; 2]%nat ≠ [] /\
  label (initial_msg "sample" seven [VInt 1] {[ "scale"%string := VInt 2 ]})
  = {| term_type := "sample"; name := VNone |} /\
  effectful "sample" seven [VInt 1] {[ "scale"%string := VInt 2 ]}
    {| HANDLER_STACK := map base_Handler [1; 2]%nat; mem := tt; trace := [] |}
  = (Return (VInt 7),
     {| HANDLER_STACK := map base_Handler [1; 2]%nat; mem := tt;
        trace := [] ++ map EvProcess (rev [1; 2]%nat)
                    ++ [EvCall 0 [VInt 1] {[ "scale"%string := VInt 2 ]}]
                    ++ map EvPostprocess [1; 2]%nat |}) /\
  fst (effectful "sample" seven [VInt 1] {[ "scale"%string := VInt 2 ]}
         {| HANDLER_STACK := map base_Handler [1; 2]%nat; mem := tt; trace := [] |})
  = fst (effectful "sample" seven [VInt 1] {[ "scale"%string := VInt 2 ]}
           {| HANDLER_STACK := []; mem := tt; trace := [] |}).
Proof.
  assert (H1 : ({[ "scale"%string := VInt 2 ]} : gmap string pyval) !! "name"%string = None)
    by reflexivity.
  assert (H2 : [1; 2]%nat ≠ []) by discriminate.
  split; [exact H1|]. split; [exact H2|].
  exact (effectful_without_name "sample" seven [VInt 1] {[ "scale"%string := VInt 2 ]}
           tt [] [1; 2]%nat H1 H2).
Defined.

Lemma exit_out_of_order_witness :
  is_ (supplier 2) (@base_Handler unit 1) = false /\
  bind (enter_all (base_Handler 1 :: [stopper 3] ++ [supplier 2]))
    (fun _ => exit_all (base_Handler 1 :: [supplier 2]))
    {| HANDLER_STACK := []; mem := tt; trace := [] |}
  = (Raise (AssertionError ""),
     {| HANDLER_STACK := [base_Handler 1; stopper 3; supplier 2]; mem := tt; trace := [] |}).
Proof.
  split; [reflexivity|].
  exact (exit_out_of_order (base_Handler 1) (supplier 2) [stopper 3] [supplier 2] [] tt []
           eq_refl).
Defined.

Lemma sample_kinds_fresh :
  forall k, k ∈ ["mul"; "div"]%string -> k ∉ dom (mapping false sample_registry).
Proof.
  intros k Hk. cbn. rewrite dom_singleton_L, elem_of_singleton.
  repeat (apply elem_of_cons in Hk as [->|Hk]; [discriminate|]).
  apply elem_of_nil in Hk. contradiction.
Defined.

Lemma sample_kinds_NoDup : NoDup ["mul"; "div"]%string.
Proof.
  apply NoDup_cons. split.
  - rewrite list_elem_of_singleton. discriminate.
  - apply NoDup_singleton.
Defined.

Lemma register_installs_each_kind_witness :
  NoDup ["mul"; "div"]%string /\
  (forall k : string, k ∈ ["mul"; "div"]%string -> k ∉ dom (mapping false sample_registry)) /\
  exists cls' : OpRegistry string nat,
    register false ["mul"; "div"]%string 2%nat sample_registry = (Return 2%nat, cls') /\
    (forall k : string, k ∈ ["mul"; "div"]%string -> mapping false cls' !! k = Some 2%nat) /\
    (forall k : string, k ∉ ["mul"; "div"]%string ->
       mapping false cls' !! k = mapping false sample_registry !! k) /\
    mapping (negb false) cls' = mapping (negb false) sample_registry.
Proof.
  split; [exact sample_kinds_NoDup|]. split; [exact sample_kinds_fresh|].
  exact (register_installs_each_kind false ["mul"; "div"]%string 2%nat sample_registry
           sample_kinds_NoDup sample_kinds_fresh).
Defined.

Lemma register_failure_keeps_earlier_kinds_witness :
  NoDup ["mul"; "div"]%string /\
  (forall k : string, k ∈ ["mul"; "div"]%string -> k ∉ dom (mapping false sample_registry)) /\
  ("add"%string ∈ dom (mapping false sample_registry) \/ "add"%string ∈ ["mul"; "div"]%string) /\
  exists cls' : OpRegistry string nat,
    register false (["mul"; "div"]%string ++ "add"%string :: ["sub"%string]) 2%nat
      sample_registry
    = (Raise (AssertionError "cannot override"), cls') /\
    (forall k : string, k ∈ ["mul"; "div"]%string -> mapping false cls' !! k = Some 2%nat) /\
    (forall k : string, k ∉ ["mul"; "div"]%string ->
       mapping false cls' !! k = mapping false sample_registry !! k).
Proof.
  assert (H3 : "add"%string ∈ dom (mapping false sample_registry)
               \/ "add"%string ∈ ["mul"; "div"]%string).
  { left. cbn. rewrite dom_singleton_L. apply elem_of_singleton. reflexivity. }
  split; [exact sample_kinds_NoDup|]. split; [exact sample_kinds_fresh|].
  split; [exact H3|].
  exact (register_failure_keeps_earlier_kinds false ["mul"; "div"]%string "add"%string
           ["sub"]%string 2%nat sample_registry sample_kinds_NoDup sample_kinds_fresh H3).
Defined.

Lemma process_override_replaces_function_witness :
  (Label_as_key sample_label ∉ dom (_terms_processed no_overrides)) /\
  _terms_postprocessed no_overrides !! Label_as_key sample_label = None /\
  effectful "sample" seven [VInt 1] ∅
    {| HANDLER_STACK :=
         [OpRegistry_handler 1
            (snd (register false [Label_as_key sample_label] five no_overrides))];
       mem := tt; trace := [] |}
  = (Return (VInt 5),
     {| HANDLER_STACK :=
          [OpRegistry_handler 1
             (snd (register false [Label_as_key sample_label] five no_overrides))];
        mem := tt; trace := [] ++ [EvProcess 1; EvPostprocess 1] |}).
Proof.
  assert (H1 : Label_as_key sample_label ∉ dom (_terms_processed no_overrides)).
  { cbn. rewrite dom_empty_L. apply not_elem_of_empty. }
  assert (H2 : _terms_postprocessed no_overrides !! Label_as_key sample_label = None)
    by reflexivity.
  split; [exact H1|]. split; [exact H2|].
  exact (process_override_replaces_function 1 no_overrides five "sample" seven
           [VInt 1] ∅ tt [] H1 H2).
Defined.

Lemma postprocess_override_has_last_word_witness :
  (Label_as_key sample_label ∉ dom (_terms_postprocessed no_overrides)) /\
  _terms_processed no_overrides !! Label_as_key sample_label = None /\
  effectful "sample" seven [VInt 1] ∅
    {| HANDLER_STACK :=
         [OpRegistry_handler 1
            (snd (register true [Label_as_key sample_label] five no_overrides))];
       mem := tt; trace := [] |}
  = (Return (VInt 5),
     {| HANDLER_STACK :=
          [OpRegistry_handler 1
             (snd (register true [Label_as_key sample_label] five no_overrides))];
        mem := tt;
        trace := [] ++ [EvProcess 1; EvCall 0 [VInt 1] ∅; EvPostprocess 1] |}).
Proof.
  assert (H1 : Label_as_key sample_label ∉ dom (_terms_postprocessed no_overrides)).
  { cbn. rewrite dom_empty_L. apply not_elem_of_empty. }
  assert (H2 : _terms_processed no_overrides !! Label_as_key sample_label = None)
    by reflexivity.
  split; [exact H1|]. split; [exact H2|].
  exact (postprocess_override_has_last_word 1 no_overrides five "sample" seven
           [VInt 1] ∅ tt [] H1 H2).
Defined.

Lemma class_registration_never_fires_witness :
  _terms_processed no_overrides !! Label_as_key sample_label = None /\
  _terms_postprocessed no_overrides !! Label_as_key sample_label = None /\
  effectful "sample" seven [VInt 1] ∅
    {| HANDLER_STACK :=
         [OpRegistry_handler 1
            (snd (register false (map KClass ["sample"%string]) five no_overrides))];
       mem := tt; trace := [] |}
  = (Return (VInt 7),
     {| HANDLER_STACK :=
          [OpRegistry_handler 1
             (snd (register false (map KClass ["sample"%string]) five no_overrides))];
        mem := tt;
        trace := [] ++ [EvProcess 1; EvCall 0 [VInt 1] ∅; EvPostprocess 1] |}).
Proof.
  assert (H1 : _terms_processed no_overrides !! Label_as_key sample_label = None)
    by reflexivity.
  assert (H2 : _terms_postprocessed no_overrides !! Label_as_key sample_label = None)
    by reflexivity.
  split; [exact H1|]. split; [exact H2|].
  exact (class_registration_never_fires 1 no_overrides false ["sample"%string] five
           "sample" seven [VInt 1] ∅ tt [] H1 H2).
Defined.

Lemma log_prob_short_data_witness :
  1 <= moment_matching_lag sample_slds /\
  Z.of_nat (length [tt]) < moment_matching_lag sample_slds /\
  log_prob sample_slds [tt] = Raise (AttributeError "name").
Proof.
  assert (H1 : 1 <= moment_matching_lag sample_slds) by (cbn; lia).
  assert (H2 : Z.of_nat (length [tt]) < moment_matching_lag sample_slds) by (cbn; lia).
  split; [exact H1|]. split; [exact H2|].
  exact (log_prob_short_data sample_slds [tt] H1 H2).
Defined.

Lemma log_prob_keeps_lag_steps_witness :
  1 <= moment_matching_lag sample_slds /\
  exists l,
    log_prob_loop sample_slds (enumerate [tt; tt; tt; tt]) log_prob_init = Return l /\
    inputs (log_prob_term l) = window (oldest sample_slds 4) 4 /\
    size (inputs (log_prob_term l)) = 4%nat.
Proof.
  assert (H1 : 1 <= moment_matching_lag sample_slds) by (cbn; lia).
  split; [exact H1|].
  exact (log_prob_keeps_lag_steps sample_slds [tt; tt; tt; tt] H1).
Defined.

Lemma filter_and_predict_needs_two_steps_witness :
  (length [tt] < 2)%nat /\
  filter_and_predict sample_slds [tt] true
  = Raise (RuntimeError "stack expects a non-empty TensorList").
Proof.
  assert (H1 : (length [tt] < 2)%nat) by (cbn; lia).
  split; [exact H1|].
  exact (filter_and_predict_needs_two_steps sample_slds [tt] true H1).
Defined.

Lemma pyro_dim_name_inj (d d' : Z) : pyro_dim_name d = pyro_dim_name d' -> d = d'.
Proof.
  unfold pyro_dim_name. cbn. intros E. injection E as E. exact (pretty_Z_inj _ _ E).
Defined.

Lemma sample_inputs_are_the_large_sample_dims_witness :
  (forall d, - Z.of_nat (length ([2; 1; 5]%nat ++ batch_shape batched_distribution)) <= d
             < - Z.of_nat (length (batch_shape batched_distribution)) ->
     Return (pyro_dim_name d) = Return (pyro_dim_name d)) /\
  (forall d d',
     - Z.of_nat (length ([2; 1; 5]%nat ++ batch_shape batched_distribution)) <= d
     < - Z.of_nat (length (batch_shape batched_distribution)) ->
     - Z.of_nat (length ([2; 1; 5]%nat ++ batch_shape batched_distribution)) <= d'
     < - Z.of_nat (length (batch_shape batched_distribution)) ->
     pyro_dim_name d = pyro_dim_name d' -> d = d') /\
  sample_inputs_of (fun d => Return (pyro_dim_name d)) batched_distribution [] = Return None /\
  ([2; 1; 5]%nat ≠ [] ->
   sample_inputs_of (fun d => Return (pyro_dim_name d)) batched_distribution [2; 1; 5]%nat
   = Return (Some [("_pyro_dim_-4"%string, 2%nat); ("_pyro_dim_-2"%string, 5%nat)])).
Proof.
  assert (H1 : forall d,
    - Z.of_nat (length ([2; 1; 5]%nat ++ batch_shape batched_distribution)) <= d
    < - Z.of_nat (length (batch_shape batched_distribution)) ->
    Return (pyro_dim_name d) = Return (pyro_dim_name d)) by reflexivity.
  assert (H2 : forall d d',
    - Z.of_nat (length ([2; 1; 5]%nat ++ batch_shape batched_distribution)) <= d
    < - Z.of_nat (length (batch_shape batched_distribution)) ->
    - Z.of_nat (length ([2; 1; 5]%nat ++ batch_shape batched_distribution)) <= d'
    < - Z.of_nat (length (batch_shape batched_distribution)) ->
    pyro_dim_name d = pyro_dim_name d' -> d = d').
  { intros d d' _ _. apply pyro_dim_name_inj. }
  split; [exact H1|]. split; [exact H2|].
  exact (sample_inputs_are_the_large_sample_dims (fun d => Return (pyro_dim_name d))
           pyro_dim_name batched_distribution [2; 1; 5]%nat H1 H2).
Defined.

(** The terms with the single [Delta] in second place fail the assertion. *)
Example sample_delta_not_first :
  sample_delta_of (TContraction [TOther 0; TDelta 1]) = Raise (AssertionError "") /\
  sample_delta_of (TContraction [TDelta 1; TOther 0]) = Return (TDelta 1).
Proof. split; reflexivity. Qed.

Lemma mode_reads_delta_before_assignment_witness :
  ("AdjointTape"%string ∈ patched_builtins) /\
  ("ops"%string ∈ patched_builtins) /\
  ("isinstance"%string ∈ patched_builtins) /\
  mode patched_builtins sample_distribution = Raise (UnboundLocalError "delta").
Proof.
  assert (H1 : "AdjointTape"%string ∈ patched_builtins)
    by (unfold patched_builtins; set_solver).
  assert (H2 : "ops"%string ∈ patched_builtins) by (unfold patched_builtins; set_solver).
  assert (H3 : "isinstance"%string ∈ patched_builtins).
  { unfold patched_builtins. apply elem_of_union. left.
    apply (bool_decide_unpack _). vm_compute. reflexivity. }
  split; [exact H1|]. split; [exact H2|]. split; [exact H3|].
  exact (mode_reads_delta_before_assignment patched_builtins sample_distribution H1 H2 H3).
Defined.

End FurtherSamples.
